(** * cloudfront-image-optimizer: the two Lambda@Edge handlers

    A shallow embedding of
    - [lambda-functions/viewer-request/index.mjs]  (the URI Rewriter) and
    - [lambda-functions/origin-response/index.mjs] (the Resize Orchestrator)
    together with the JavaScript primitives they call, and the properties
    of the specification stated and proved over that embedding. *)

From Stdlib Require Import ZArith NArith List String Ascii Bool Lia.
From stdpp Require Import base decidable option list countable gmap.
Import ListNotations.

Local Open Scope N_scope.
Local Open Scope list_scope.

(** ** JavaScript strings

    A JavaScript string is a sequence of UTF-16 code units; a code unit is
    modelled as an [N].  [js] turns a Rocq literal into such a sequence and
    [chr] does the same for one character. *)

Abbreviation jsstring := (list N).

Definition chr (a : ascii) : N := N_of_ascii a.
Arguments chr : simpl never.

Definition js (s : string) : jsstring := List.map chr (list_ascii_of_string s).

(** The value a template literal prints for a missing binding. *)
Definition undefined_str : jsstring := js "undefined".

(** [arr[i]] inside a template literal: an index out of range reads
    [undefined], printed as the text "undefined". *)
Definition at_index (arr : list jsstring) (i : nat) : jsstring :=
  nth i arr undefined_str.

Definition str_eqb (a b : jsstring) : bool := bool_decide (a = b).

(** [s.substring(start)] with a non-negative [start]. *)
Definition substring (start : nat) (s : jsstring) : jsstring := skipn start s.

(** [s.split(sep)] for a separator of one code unit: the pieces between the
    occurrences of [sep]; a string without [sep] (also the empty string)
    gives one piece. *)
Fixpoint split (sep : N) (s : jsstring) : list jsstring :=
  match s with
  | [] => [[]]
  | c :: s' =>
      if N.eqb c sep then [] :: split sep s'
      else match split sep s' with
           | piece :: pieces => (c :: piece) :: pieces
           | [] => [[c]]
           end
  end.

Fixpoint starts_with (pre s : jsstring) : bool :=
  match pre, s with
  | [], _ => true
  | p :: pre', c :: s' => N.eqb p c && starts_with pre' s'
  | _ :: _, [] => false
  end.

(** [s.includes(sub)]: [sub] occurs somewhere in [s]. *)
Fixpoint includes (s sub : jsstring) : bool :=
  starts_with sub s ||
  match s with
  | [] => false
  | _ :: s' => includes s' sub
  end.

(** ** Regular expressions

    The two patterns of the handlers are built from literal characters,
    capturing groups of the form [(k+)] for a character class [k] (greedy),
    and the assertions [^] and [$] (no [m] flag: start and end of input).
    The matcher is the backtracking one of the language: a group first
    takes as many characters as it can and gives them back one at a time
    until the rest of the pattern matches. *)

Inductive cclass : Type :=
  | Dot                (* .     : anything but a line terminator *)
  | Digit              (* \d    : 0-9 *)
  | NotChr (c : N).    (* [^c]  : anything but c *)

Definition is_line_terminator (c : N) : bool :=
  N.eqb c 10 || N.eqb c 13 || N.eqb c 8232 || N.eqb c 8233.

Definition is_digit (c : N) : bool := N.leb 48 c && N.leb c 57.

Definition class_mem (k : cclass) (c : N) : bool :=
  match k with
  | Dot => negb (is_line_terminator c)
  | Digit => is_digit c
  | NotChr x => negb (N.eqb c x)
  end.

Inductive node : Type :=
  | Chr (c : N)         (* a literal character *)
  | Group (k : cclass)  (* (k+) *)
  | Bos                 (* ^ *)
  | Eos.                (* $ *)

Abbreviation regex := (list node).

Definition lits (s : jsstring) : regex := List.map Chr s.

Section Matcher.
Context {R : Type}.

(** [k+] followed by the continuation [cont]: called with the characters
    taken so far in [acc], it takes one more character of the class and
    first tries to go on taking; when that fails it stops there. *)
Fixpoint greedy (k : cclass) (cont : jsstring -> jsstring -> option R)
         (acc s : jsstring) : option R :=
  match s with
  | c :: s' =>
      if class_mem k c then
        match greedy k cont (acc ++ [c]) s' with
        | Some r => Some r
        | None => cont (acc ++ [c]) s'
        end
      else None
  | [] => None
  end.
End Matcher.

(** [run p i s caps]: match pattern [p] against [s], which starts at index
    [i] of the input, with the groups captured so far in [caps]; the result
    is the captures and the input left after the match. *)
Fixpoint run (p : regex) (i : nat) (s : jsstring) (caps : list jsstring)
  : option (list jsstring * jsstring) :=
  match p with
  | [] => Some (caps, s)
  | Chr c :: p' =>
      match s with
      | x :: s' => if N.eqb x c then run p' (S i) s' caps else None
      | [] => None
      end
  | Group k :: p' =>
      greedy k (fun got rest => run p' (i + length got)%nat rest (caps ++ [got])) [] s
  | Bos :: p' => if Nat.eqb i 0 then run p' i s caps else None
  | Eos :: p' =>
      match s with
      | [] => run p' i s caps
      | _ :: _ => None
      end
  end.

(** The search of [RegExp.prototype.exec] without the [g] flag: the match
    is tried at index 0, 1, ... and the first success wins.  The result is
    the array [whole match; group 1; group 2; ...]. *)
Fixpoint exec_from (p : regex) (i : nat) (s : jsstring) : option (list jsstring) :=
  match run p i s [] with
  | Some (caps, rest) => Some (firstn (length s - length rest) s :: caps)
  | None =>
      match s with
      | [] => None
      | _ :: s' => exec_from p (S i) s'
      end
  end.

(** [s.match(p)]; [None] is JavaScript's [null]. *)
Definition str_match (s : jsstring) (p : regex) : option (list jsstring) :=
  exec_from p 0 s.

(** ** Numbers

    [parseInt] returns an integer or [NaN]. *)
Inductive jsnum : Type :=
  | NaN
  | Num (z : Z).

Definition is_str_whitespace (c : N) : bool :=
  N.eqb c 9 || N.eqb c 10 || N.eqb c 11 || N.eqb c 12 || N.eqb c 13 ||
  N.eqb c 32 || N.eqb c 160 || N.eqb c 5760 ||
  (N.leb 8192 c && N.leb c 8202) ||
  N.eqb c 8232 || N.eqb c 8233 || N.eqb c 8239 || N.eqb c 8287 ||
  N.eqb c 12288 || N.eqb c 65279.

Fixpoint trim_start (s : jsstring) : jsstring :=
  match s with
  | c :: s' => if is_str_whitespace c then trim_start s' else s
  | [] => []
  end.

(** The value of the leading decimal digits of [s] after the digits [acc]
    already read; [None] when there is no digit at all. *)
Fixpoint digits_value (acc : option Z) (s : jsstring) : option Z :=
  match s with
  | c :: s' =>
      if is_digit c
      then digits_value (Some (10 * default 0%Z acc + Z.of_N (c - 48))%Z) s'
      else acc
  | [] => acc
  end.

(** [parseInt(s, 10)]: leading white space, an optional sign, then the
    longest run of decimal digits; [NaN] without a digit.  The integer is
    kept exact; the handler only compares it with 0 and 4000, and rounding
    to a double does not change those comparisons. *)
Definition parseInt10 (s : jsstring) : jsnum :=
  let t := trim_start s in
  let '(sign, body) :=
    match t with
    | c :: t' =>
        if N.eqb c (chr "-") then ((-1)%Z, t')
        else if N.eqb c (chr "+") then (1%Z, t')
        else (1%Z, t)
    | [] => (1%Z, t)
    end in
  match digits_value None body with
  | Some v => Num (sign * v)
  | None => NaN
  end.

(** [a <= b] and [a > b] on numbers: every comparison with [NaN] is false. *)
Definition num_le (a : jsnum) (b : Z) : bool :=
  match a with Num z => Z.leb z b | NaN => false end.

Definition num_gt (a : jsnum) (b : Z) : bool :=
  match a with Num z => Z.ltb b z | NaN => false end.

(** ** URLSearchParams

    [new URLSearchParams(init)] for a string [init], after the URL
    Standard: the string is made a scalar-value string and encoded as
    UTF-8, cut at [&], each piece cut at its first [=], [+] read as a
    space, percent-decoded, and decoded from UTF-8 with replacement. *)
Module URLSearchParams.

Definition replacement : N := 65533.

Definition is_high_surrogate (c : N) : bool := N.leb 55296 c && N.leb c 56319.
Definition is_low_surrogate (c : N) : bool := N.leb 56320 c && N.leb c 57343.

(** Code units to scalar values: a surrogate pair is one scalar value, a
    lone surrogate becomes U+FFFD. *)
Fixpoint scalar_values (s : jsstring) : list N :=
  match s with
  | [] => []
  | c :: rest =>
      if is_high_surrogate c then
        match rest with
        | d :: rest' =>
            if is_low_surrogate d
            then (65536 + (c - 55296) * 1024 + (d - 56320)) :: scalar_values rest'
            else replacement :: scalar_values rest
        | [] => [replacement]
        end
      else if is_low_surrogate c then replacement :: scalar_values rest
      else c :: scalar_values rest
  end.

Definition utf8_encode_scalar (v : N) : list N :=
  if N.ltb v 128 then [v]
  else if N.ltb v 2048 then [192 + v / 64; 128 + v mod 64]
  else if N.ltb v 65536 then [224 + v / 4096; 128 + (v / 64) mod 64; 128 + v mod 64]
  else [240 + v / 262144; 128 + (v / 4096) mod 64; 128 + (v / 64) mod 64; 128 + v mod 64].

Definition utf8_encode (s : jsstring) : list N :=
  List.concat (List.map utf8_encode_scalar (scalar_values s)).

Definition utf16_encode_scalar (v : N) : jsstring :=
  if N.ltb v 65536 then [v]
  else [55296 + (v - 65536) / 1024; 56320 + (v - 65536) mod 1024].

(** The state of the UTF-8 decoder between two bytes. *)
Record decoder : Type := mkDecoder {
  code_point : N;
  bytes_seen : N;
  bytes_needed : N;
  lower : N;
  upper : N
}.

Definition decoder_init : decoder := mkDecoder 0 0 0 128 191.

(** A byte read while no sequence is open: the scalar value to emit, if
    any, and the next state. *)
Definition lead_byte (b : N) : option N * decoder :=
  if N.leb b 127 then (Some b, decoder_init)
  else if N.leb 194 b && N.leb b 223 then
    (None, mkDecoder (N.land b 31) 0 1 128 191)
  else if N.leb 224 b && N.leb b 239 then
    (None, mkDecoder (N.land b 15) 0 2
                     (if N.eqb b 224 then 160 else 128)
                     (if N.eqb b 237 then 159 else 191))
  else if N.leb 240 b && N.leb b 244 then
    (None, mkDecoder (N.land b 7) 0 3
                     (if N.eqb b 240 then 144 else 128)
                     (if N.eqb b 244 then 143 else 191))
  else (Some replacement, decoder_init).

Definition emit (o : option N) (rest : list N) : list N :=
  match o with Some v => v :: rest | None => rest end.

(** UTF-8 decode without BOM, errors replaced by U+FFFD.  A byte that
    breaks an open sequence is read again as a lead byte. *)
Fixpoint utf8_decode_from (d : decoder) (bs : list N) : list N :=
  match bs with
  | [] => if N.eqb (bytes_needed d) 0 then [] else [replacement]
  | b :: bs' =>
      if N.eqb (bytes_needed d) 0 then
        let '(o, d') := lead_byte b in emit o (utf8_decode_from d' bs')
      else if negb (N.leb (lower d) b && N.leb b (upper d)) then
        let '(o, d') := lead_byte b in
        replacement :: emit o (utf8_decode_from d' bs')
      else
        let cp := N.lor (N.shiftl (code_point d) 6) (N.land b 63) in
        let seen := bytes_seen d + 1 in
        if N.eqb seen (bytes_needed d)
        then cp :: utf8_decode_from decoder_init bs'
        else utf8_decode_from (mkDecoder cp seen (bytes_needed d) 128 191) bs'
  end.

Definition utf8_decode (bs : list N) : jsstring :=
  List.concat (List.map utf16_encode_scalar (utf8_decode_from decoder_init bs)).

Definition is_hex (b : N) : bool :=
  (N.leb 48 b && N.leb b 57) || (N.leb 65 b && N.leb b 70) ||
  (N.leb 97 b && N.leb b 102).

Definition hex_value (b : N) : N :=
  if N.leb b 57 then b - 48 else if N.leb b 70 then b - 55 else b - 87.

Fixpoint percent_decode (bs : list N) : list N :=
  match bs with
  | [] => []
  | b :: rest =>
      if N.eqb b 37 then
        match rest with
        | h1 :: h2 :: rest' =>
            if is_hex h1 && is_hex h2
            then (16 * hex_value h1 + hex_value h2) :: percent_decode rest'
            else b :: percent_decode rest
        | _ => b :: percent_decode rest
        end
      else b :: percent_decode rest
  end.

(** Cut at the first [=]; a piece without [=] is a name with an empty
    value. *)
Fixpoint cut_at_equals (bs : list N) : list N * list N :=
  match bs with
  | [] => ([], [])
  | b :: rest =>
      if N.eqb b 61 then ([], rest)
      else let '(name, value) := cut_at_equals rest in (b :: name, value)
  end.

Definition plus_to_space (bs : list N) : list N :=
  List.map (fun b => if N.eqb b 43 then 32 else b) bs.

Definition decode_component (bs : list N) : jsstring :=
  utf8_decode (percent_decode (plus_to_space bs)).

Definition is_nil {A} (l : list A) : bool :=
  match l with [] => true | _ :: _ => false end.

(** The application/x-www-form-urlencoded parser. *)
Definition parse_urlencoded (bs : list N) : list (jsstring * jsstring) :=
  List.map (fun piece =>
              let '(name, value) := cut_at_equals piece in
              (decode_component name, decode_component value))
           (List.filter (fun piece => negb (is_nil piece)) (split 38 bs)).

(** The constructor: a leading [?] is dropped. *)
Definition new (init : jsstring) : list (jsstring * jsstring) :=
  let init' := match init with
               | c :: rest => if N.eqb c 63 then rest else init
               | [] => init
               end in
  parse_urlencoded (utf8_encode init').

(** [params.has(name)] and [params.get(name)] ([None] is [null]); the
    name is made a scalar-value string like every argument. *)
Definition usv (s : jsstring) : jsstring :=
  List.concat (List.map utf16_encode_scalar (scalar_values s)).

Definition has (params : list (jsstring * jsstring)) (name : jsstring) : bool :=
  existsb (fun p => str_eqb (fst p) (usv name)) params.

Definition get (params : list (jsstring * jsstring)) (name : jsstring)
  : option jsstring :=
  option_map snd (List.find (fun p => str_eqb (fst p) (usv name)) params).

End URLSearchParams.

(** ** Buffers

    A [Buffer] or [Uint8Array] is a list of bytes.  [base64] is
    [buf.toString('base64')]: the standard alphabet with [=] padding. *)
Abbreviation buffer := (list Byte.byte).

Definition base64_alphabet : jsstring :=
  js "ABCDEFGHIJKLMNOPQRSTUVWXYZabcdefghijklmnopqrstuvwxyz0123456789+/".

Definition base64_char (v : N) : N := nth (N.to_nat v) base64_alphabet 0.

Fixpoint base64 (buf : buffer) : jsstring :=
  match buf with
  | [] => []
  | [a] =>
      let a := Byte.to_N a in
      [base64_char (a / 4); base64_char ((a mod 4) * 16); chr "="; chr "="]
  | [a; b] =>
      let a := Byte.to_N a in
      let b := Byte.to_N b in
      [base64_char (a / 4); base64_char ((a mod 4) * 16 + b / 16);
       base64_char ((b mod 16) * 4); chr "="]
  | a :: b :: c :: rest =>
      let a := Byte.to_N a in
      let b := Byte.to_N b in
      let c := Byte.to_N c in
      base64_char (a / 4) :: base64_char ((a mod 4) * 16 + b / 16) ::
      base64_char ((b mod 16) * 4 + c / 64) :: base64_char (c mod 64) ::
      base64 rest
  end.

(** ** Effects

    A handler is an [async] function: it reads and writes module state,
    writes to the console, sends commands to the object store, and either
    returns or throws (a rejected promise).  [M S A] is a computation over
    module state [S] with result [A]; it records the console lines and the
    commands sent in [trace], in order.  What happens in promise chains that
    nobody awaits is recorded apart, in [detached]. *)

Inductive error : Type :=
  | TypeError (message : jsstring)
  | ServiceError (name : jsstring).

Inductive completion (A : Type) : Type :=
  | Return (a : A)
  | Throw (e : error).
Arguments Return {A} a.
Arguments Throw {A} e.

(** A promise is modelled by the way it settles. *)
Inductive promise (A : Type) : Type :=
  | Fulfilled (a : A)
  | Rejected (e : error).
Arguments Fulfilled {A} a.
Arguments Rejected {A} e.

Inductive logarg : Type :=
  | LStr (s : jsstring)
  | LNum (n : jsnum)
  | LErr (e : error).

Inductive s3_command : Type :=
  | GetObjectCommand (Bucket Key : jsstring)
  | PutObjectCommand (Bucket Key : jsstring) (Body : buffer)
                     (ContentType CacheControl : jsstring).

Inductive event : Type :=
  | ConsoleLog (args : list logarg)
  | ConsoleError (args : list logarg)
  | S3Send (command : s3_command).

Record result (S A : Type) : Type := mkResult {
  final_state : S;
  trace : list event;
  detached : list event;
  outcome : completion A
}.
Arguments mkResult {S A} _ _ _ _.
Arguments final_state {S A} _.
Arguments trace {S A} _.
Arguments detached {S A} _.
Arguments outcome {S A} _.

Definition M (S A : Type) : Type := S -> result S A.

Section Monad.
Context {S : Type}.

Definition ret {A} (a : A) : M S A := fun st => mkResult st [] [] (Return a).

Definition throw {A} (e : error) : M S A := fun st => mkResult st [] [] (Throw e).

Definition bind {A B} (m : M S A) (k : A -> M S B) : M S B :=
  fun st =>
    match m st with
    | mkResult st1 tr1 dt1 (Return a) =>
        match k a st1 with
        | mkResult st2 tr2 dt2 out => mkResult st2 (tr1 ++ tr2) (dt1 ++ dt2) out
        end
    | mkResult st1 tr1 dt1 (Throw e) => mkResult st1 tr1 dt1 (Throw e)
    end.

(** [try { m } catch (e) { h e }] *)
Definition try_catch {A} (m : M S A) (h : error -> M S A) : M S A :=
  fun st =>
    match m st with
    | mkResult st1 tr1 dt1 (Return a) => mkResult st1 tr1 dt1 (Return a)
    | mkResult st1 tr1 dt1 (Throw e) =>
        match h e st1 with
        | mkResult st2 tr2 dt2 out => mkResult st2 (tr1 ++ tr2) (dt1 ++ dt2) out
        end
    end.

Definition emit_event (e : event) : M S unit :=
  fun st => mkResult st [e] [] (Return tt).

Definition console_log (args : list logarg) : M S unit :=
  emit_event (ConsoleLog args).

Definition console_error (args : list logarg) : M S unit :=
  emit_event (ConsoleError args).

Definition get_state : M S S := fun st => mkResult st [] [] (Return st).

Definition put_state (st' : S) : M S unit :=
  fun _ => mkResult st' [] [] (Return tt).

(** [await p] *)
Definition await {A} (p : promise A) : M S A :=
  match p with
  | Fulfilled a => ret a
  | Rejected e => throw e
  end.

(** [p.catch(h)] with the resulting promise dropped: the caller goes on
    at once; if [p] rejects, [h] runs later, on its own. *)
Definition catch_detached {A} (p : promise A) (h : error -> M S unit) : M S unit :=
  fun st =>
    match p with
    | Fulfilled _ => mkResult st [] [] (Return tt)
    | Rejected e => mkResult st [] (trace (h e st)) (Return tt)
    end.
End Monad.

Declare Scope monad_scope.
Delimit Scope monad_scope with monad.
Notation "x <- m ;; k" := (bind m (fun x => k))
  (at level 100, m at next level, right associativity) : monad_scope.
Notation "m ;; k" := (bind m (fun _ => k))
  (at level 100, right associativity) : monad_scope.

(** ** The invocation interface *)

Module Header.
Record t : Type := mk {
  key : option jsstring;
  value : jsstring
}.
End Header.

Abbreviation headers_map := (gmap (list N) (list Header.t)).

Module Request.
Record t : Type := mk {
  uri : jsstring;
  querystring : jsstring;
  method : jsstring;
  headers : headers_map
}.

(** [request.uri = u] *)
Definition set_uri (u : jsstring) (r : t) : t :=
  mk u (querystring r) (method r) (headers r).
End Request.

(** The status of a response the platform hands over is a string; the
    response the Orchestrator builds carries the number 200. *)
Inductive status_value : Type :=
  | StatusStr (s : jsstring)
  | StatusNum (n : Z).

Module Response.
Record t : Type := mk {
  status : status_value;
  statusDescription : jsstring;
  headers : headers_map;
  body : option jsstring;
  bodyEncoding : option jsstring
}.
End Response.

(** [v !== s] for a string literal [s]: a number is never strictly equal
    to a string. *)
Definition strict_neq_str (v : status_value) (s : jsstring) : bool :=
  match v with
  | StatusStr t => negb (str_eqb t s)
  | StatusNum _ => true
  end.

(** ** The URI Rewriter: viewer-request/index.mjs *)
Module ViewerRequest.
Import Request.
Local Open Scope monad_scope.

(** [event.Records[0].cf] of a viewer-request event. *)
Record cf : Type := mkCf { request : Request.t }.

(** [/\/(.+)\/([^/]+)\.([^.]+)$/] *)
Definition uri_pattern : regex :=
  [Chr (chr "/"); Group Dot; Chr (chr "/"); Group (NotChr (chr "/"));
   Chr (chr "."); Group (NotChr (chr ".")); Eos].

(** [request.headers['accept']?.[0]?.value] *)
Definition acceptHeader (request : Request.t) : option jsstring :=
  match headers request !! js "accept" with
  | Some (h :: _) => Some (Header.value h)
  | _ => None
  end.

(** [acceptHeader?.includes('webp') ? 'webp' : extension] *)
Definition negotiate (accept : option jsstring) (extension : jsstring) : jsstring :=
  if match accept with
     | Some v => includes v (js "webp")
     | None => false
     end
  then js "webp" else extension.

Definition handler (event : cf) : M unit Request.t :=
  let request := request event in
  let params := URLSearchParams.new (querystring request) in
  if negb (URLSearchParams.has params (js "d")) then ret request
  else
    match str_match (uri request) uri_pattern with
    | None => ret request
    | Some uriMatch =>
        let path := at_index uriMatch 1 in
        let filename := at_index uriMatch 2 in
        let extension := at_index uriMatch 3 in
        d <- match URLSearchParams.get params (js "d") with
             | Some v => ret v
             | None => throw (TypeError (js "Cannot read properties of null"))
             end;;
        let dimension := split (chr "x") d in
        if negb (Nat.eqb (length dimension) 2) then ret request
        else
          let format := negotiate (acceptHeader request) extension in
          let request :=
            set_uri (js "/resize/" ++ path ++ js "/" ++ at_index dimension 0 ++
                     js "x" ++ at_index dimension 1 ++ js "/" ++ format ++
                     js "/" ++ filename ++ js "." ++ extension) request in
          console_log [LStr (uri request)];;
          ret request
    end.
End ViewerRequest.

(** ** The Resize Orchestrator: origin-response/index.mjs *)
Module OriginResponse.
Local Open Scope monad_scope.

(** [event.Records[0].cf] of an origin-response event. *)
Record cf : Type := mkCf {
  request : Request.t;
  response : Response.t
}.

Record S3Client : Type := mkS3Client { region : jsstring }.

(** What lies outside the handler: the object store and the image
    library.
    - [get_object c Bucket Key] is how [c.send(new GetObjectCommand(..))]
      settles; when it is fulfilled, the inner promise is how
      [Body.transformToByteArray()] settles.
    - [put_object] is how the [PutObjectCommand] settles.
    - [sharp_pipeline buf width height format] is how
      [sharp(buf).rotate().resize(width, height, {fit: inside,
      withoutEnlargement: true}).toFormat(format).toBuffer()] settles;
      an exception thrown while the chain is built counts as a
      rejection, both end in the same [catch]. *)
Record world : Type := mkWorld {
  get_object : S3Client -> jsstring -> jsstring -> promise (promise buffer);
  put_object : S3Client -> jsstring -> jsstring -> buffer -> jsstring ->
               jsstring -> promise unit;
  sharp_pipeline : buffer -> jsnum -> jsnum -> jsstring -> promise buffer
}.

(** [/^resize\/(.+)\/(\d+)x(\d+)\/([^/]+)\/(.+)$/] *)
Definition KEY_PATTERN : regex :=
  Bos :: lits (js "resize") ++
  [Chr (chr "/"); Group Dot; Chr (chr "/"); Group Digit; Chr (chr "x");
   Group Digit; Chr (chr "/"); Group (NotChr (chr "/")); Chr (chr "/");
   Group Dot; Eos].
Definition BUCKET : jsstring := js "__S3_BUCKET_PLACEHOLDER__".
Definition REGION : jsstring := js "ap-northeast-1".
Definition MAX_DIMENSION : Z := 4000.
Definition CACHE_CONTROL : jsstring := js "max-age=86400".

(** The module variable [s3Client]: [None] until the first invocation. *)
Abbreviation module_state := (option S3Client).

(** [s3Client.send(command)]: the command goes out and a promise comes
    back. *)
Definition send {A} (command : s3_command) (settles : S3Client -> promise A)
  : M module_state (promise A) :=
  s3Client <- get_state;;
  match s3Client with
  | None => throw (TypeError (js "Cannot read properties of undefined"))
  | Some c => emit_event (S3Send command);; ret (settles c)
  end.

Definition handler (w : world) (event : cf) : M module_state Response.t :=
  s3Client <- get_state;;
  match s3Client with
  | None => put_state (Some (mkS3Client REGION))
  | Some _ => ret tt
  end;;
  let request := request event in
  let response := response event in
  if strict_neq_str (Response.status response) (js "404") &&
     strict_neq_str (Response.status response) (js "403")
  then ret response
  else
    let key := substring 1 (Request.uri request) in
    console_log [LStr (js "Not Found. key:"); LStr key];;
    match str_match key KEY_PATTERN with
    | None =>
        console_log [LStr (js "Invalid key format")];;
        ret response
    | Some keyMatch =>
        let subpath := at_index keyMatch 1 in
        let widthStr := at_index keyMatch 2 in
        let heightStr := at_index keyMatch 3 in
        let format := at_index keyMatch 4 in
        let filename := at_index keyMatch 5 in
        let width := parseInt10 widthStr in
        let height := parseInt10 heightStr in
        if num_le width 0 || num_le height 0 ||
           num_gt width MAX_DIMENSION || num_gt height MAX_DIMENSION
        then
          console_log [LStr (js "Invalid dimensions:"); LNum width; LNum height];;
          ret response
        else
          let sharpFormat := if str_eqb format (js "jpg") then js "jpeg" else format in
          let originKey := js "origin/" ++ subpath ++ js "/" ++ filename in
          console_log [LStr (js "Origin key:"); LStr originKey];;
          try_catch
            (fetch <- send (GetObjectCommand BUCKET originKey)
                           (fun c => get_object w c BUCKET originKey);;
             Body <- await fetch;;
             imageBuffer <- await Body;;
             resizedBuffer <- await (sharp_pipeline w imageBuffer width height sharpFormat);;
             let contentType := js "image/" ++ sharpFormat in
             upload <- send (PutObjectCommand BUCKET key resizedBuffer contentType CACHE_CONTROL)
                            (fun c => put_object w c BUCKET key resizedBuffer
                                                 contentType CACHE_CONTROL);;
             catch_detached upload
               (fun err => console_error [LStr (js "Failed to upload resized image:"); LErr err]);;
             ret (Response.mk
                    (StatusNum 200)
                    (js "OK")
                    (<[js "content-type" :=
                         [Header.mk (Some (js "Content-Type")) contentType]]>
                       (Response.headers response))
                    (Some (base64 resizedBuffer))
                    (Some (js "base64"))))
            (fun error =>
               console_error [LStr (js "Error processing image:"); LErr error];;
               ret response)
    end.
End OriginResponse.

(** * The vocabulary of the properties *)

(** [lacks c s]: the character [c] does not occur in [s]. *)
Definition lacks (c : N) (s : jsstring) : Prop := ~ In c s.

(** [one_line s]: no line terminator occurs in [s]. *)
Definition one_line (s : jsstring) : Prop :=
  forallb (class_mem Dot) s = true.

(** [all_digits s]: every character of [s] is a decimal digit. *)
Definition all_digits (s : jsstring) : Prop :=
  forallb is_digit s = true.

(** The number of occurrences of [c] in [s]. *)
Fixpoint count (c : N) (s : jsstring) : nat :=
  match s with
  | [] => 0
  | x :: s' => (if N.eqb x c then 1 else 0) + count c s'
  end.

(** What a successful [run] says about the input, read off the pattern. *)
Fixpoint accepts (p : regex) (i : nat) (s : jsstring) (caps : list jsstring)
         (out : list jsstring * jsstring) : Prop :=
  match p with
  | [] => out = (caps, s)
  | Chr c :: p' => exists s', s = c :: s' /\ accepts p' (S i) s' caps out
  | Group k :: p' =>
      exists a b, s = a ++ b /\ a <> [] /\ forallb (class_mem k) a = true /\
                  accepts p' (i + length a)%nat b (caps ++ [a]) out
  | Bos :: p' => i = 0%nat /\ accepts p' i s caps out
  | Eos :: p' => s = [] /\ accepts p' i s caps out
  end.

Section RewriterVocabulary.
Import ViewerRequest Request.

(** The value of the [d] parameter of a request, if it has one. *)
Definition d_param (r : Request.t) : option jsstring :=
  URLSearchParams.get (URLSearchParams.new (querystring r)) (js "d").

(** The format the Rewriter puts in the path: [webp] when the first
    [accept] header mentions it, the extension of the file otherwise. *)
Definition negotiated_format (r : Request.t) (extension : jsstring) : jsstring :=
  match acceptHeader r with
  | Some accept => if includes accept (js "webp") then js "webp" else extension
  | None => extension
  end.

(** A GET request with one [accept] header. *)
Definition get_request (uri querystring accept : string) : Request.t :=
  Request.mk (js uri) (js querystring) (js "GET")
             {[ js "accept" := [Header.mk None (js accept)] ]}.

(** The request of the scenario of the specification:
    [/blog/posts/cover.jpg?d=300x300] from a client that accepts WebP. *)
Definition cover_request : Request.t :=
  get_request "/blog/posts/cover.jpg" "d=300x300" "text/html,image/webp,*/*".

(** The request [/image/test.png?d=300x]: a width and no height. *)
Definition no_height_request : Request.t :=
  get_request "/image/test.png" "d=300x" "text/html,*/*".

(** The parts are two and neither is empty. *)
Definition two_nonempty_parts (parts : list jsstring) : Prop :=
  exists a b, parts = [a; b] /\ a <> [] /\ b <> [].

(** C3 as the specification has it: whenever the [d] value does not split
    into exactly two non-empty parts, the request comes back as it was. *)
Definition passes_malformed_d_through (r : Request.t) : Prop :=
  forall d, d_param r = Some d ->
            ~ two_nonempty_parts (split (chr "x") d) ->
            outcome (handler (mkCf r) tt) = Return r.

(** The request of the repository's own test: [d=invalid]. *)
Definition invalid_request : Request.t :=
  get_request "/image/test.png" "d=invalid" "text/html,image/webp,*/*".

(** A subpath, two dimensions, a filename and an extension as they occur
    in a derived key. *)
Definition valid_subpath (s : jsstring) : Prop := s <> [] /\ one_line s.

Definition valid_dimension (s : jsstring) : Prop := s <> [] /\ all_digits s.

Definition valid_segment (s : jsstring) : Prop :=
  s <> [] /\ lacks (chr "/") s /\ one_line s.

Definition valid_filename (filename extension : jsstring) : Prop :=
  valid_segment filename /\ valid_segment extension /\ lacks (chr ".") extension.
End RewriterVocabulary.

Section OrchestratorVocabulary.
Import OriginResponse.

(** The client the handler works with: the one of the module state, or a
    new one for the fixed region on the first invocation. *)
Definition client_of (st : module_state) : S3Client :=
  match st with
  | Some c => c
  | None => mkS3Client REGION
  end.

(** The not-found class of statuses. *)
Definition not_found_class (s : status_value) : Prop :=
  s = StatusStr (js "404") \/ s = StatusStr (js "403").

(** The commands sent to the object store in a trace, in order. *)
Fixpoint s3_commands (tr : list event) : list s3_command :=
  match tr with
  | [] => []
  | S3Send c :: tr' => c :: s3_commands tr'
  | _ :: tr' => s3_commands tr'
  end.

(** The key the handler works on. *)
Definition derived_key (ev : cf) : jsstring :=
  substring 1 (Request.uri (request ev)).

(** The event of the scenarios of the specification: a 404 for the key
    of [uri]. *)
Definition not_found_event (uri : jsstring) : cf :=
  mkCf (Request.mk uri [] (js "GET") ∅)
       (Response.mk (StatusStr (js "404")) (js "Not Found") ∅ None None).

(** A store that holds one original, [origin/blog/cover.jpg], and an image
    library that hands the bytes back as they are. *)
Definition cover_world : world :=
  mkWorld
    (fun _ _ Key =>
       if str_eqb Key (js "origin/blog/cover.jpg")
       then Fulfilled (Fulfilled [Byte.xff; Byte.xd8; Byte.xff])
       else Rejected (ServiceError (js "NoSuchKey")))
    (fun _ _ _ _ _ _ => Fulfilled tt)
    (fun buf _ _ _ => Fulfilled buf).

(** A 500 from the origin for a derived key. *)
Definition server_error_event : cf :=
  mkCf (Request.mk (js "/resize/blog/300x300/webp/cover.jpg") [] (js "GET") ∅)
       (Response.mk (StatusStr (js "500")) (js "Internal Server Error") ∅ None None).

(** The test of the handler on the two parsed dimensions. *)
Definition bounds_violated (width height : jsnum) : bool :=
  num_le width 0 || num_le height 0 ||
  num_gt width MAX_DIMENSION || num_gt height MAX_DIMENSION.

(** [format === 'jpg' ? 'jpeg' : format] *)
Definition mapped_format (format : jsstring) : jsstring :=
  if str_eqb format (js "jpg") then js "jpeg" else format.

(** The response the handler builds around the resized image [out]. *)
Definition synthesized (response : Response.t) (format : jsstring) (out : buffer)
  : Response.t :=
  Response.mk (StatusNum 200) (js "OK")
              (<[js "content-type" :=
                   [Header.mk (Some (js "Content-Type"))
                              (js "image/" ++ mapped_format format)]]>
                 (Response.headers response))
              (Some (base64 out)) (Some (js "base64")).

(** The original of a derived key. *)
Definition origin_key (subpath filename : jsstring) : jsstring :=
  js "origin/" ++ subpath ++ js "/" ++ filename.

(** The hypotheses shared by the claims about the path after the checks:
    a not-found status, a key that matches, and dimensions within
    bounds. *)
Definition checks_pass (ev : cf) (subpath widthStr heightStr format filename : jsstring)
           (wz hz : Z) : Prop :=
  not_found_class (Response.status (response ev)) /\
  str_match (substring 1 (Request.uri (request ev))) KEY_PATTERN =
    Some [substring 1 (Request.uri (request ev));
          subpath; widthStr; heightStr; format; filename] /\
  parseInt10 widthStr = Num wz /\ parseInt10 heightStr = Num hz /\
  (0 < wz <= 4000)%Z /\ (0 < hz <= 4000)%Z.

(** The fetch of the original or the transform fails with error [e]: the
    command is rejected, or the body cannot be read, or the image library
    rejects the bytes. *)
Definition fetch_or_transform_fails (w : world) (c : S3Client)
           (originKey : jsstring) (width height : jsnum) (format : jsstring)
           (e : error) : Prop :=
  get_object w c BUCKET originKey = Rejected e \/
  get_object w c BUCKET originKey = Fulfilled (Rejected e) \/
  exists imageBuffer,
    get_object w c BUCKET originKey = Fulfilled (Fulfilled imageBuffer) /\
    sharp_pipeline w imageBuffer width height format = Rejected e.

(** The event of the success scenario and the facts about it. *)
Definition cover_event : cf := not_found_event (js "/resize/blog/300x300/webp/cover.jpg").

(** The event of a key whose original is not in the store. *)
Definition missing_event : cf := not_found_event (js "/resize/blog/300x300/webp/gone.jpg").
End OrchestratorVocabulary.

(** ** Vocabulary of the further properties *)

(** [parts.join(sep)] for a separator of one code unit. *)
Fixpoint join (sep : N) (parts : list jsstring) : jsstring :=
  match parts with
  | [] => []
  | p :: rest =>
      match rest with
      | [] => p
      | _ :: _ => p ++ sep :: join sep rest
      end
  end.

(** The number a run of decimal digits denotes. *)
Definition decimal (s : jsstring) : Z :=
  fold_left (fun a c => (10 * a + Z.of_N (c - 48))%Z) s 0%Z.

(** A character a query string carries as it is: ASCII, and none of [&],
    [+] and [%]. *)
Definition plain_char (c : N) : bool :=
  N.ltb c 128 && negb (N.eqb c 38) && negb (N.eqb c 43) && negb (N.eqb c 37).

Definition plain (s : jsstring) : Prop := forallb plain_char s = true.

(** The derived key of the data model:
    [resize/{subpath}/{width}x{height}/{format}/{filename}]. *)
Definition derived_key_of (subpath width height format filename : jsstring) : jsstring :=
  js "resize/" ++ subpath ++ js "/" ++ width ++ js "x" ++ height ++
  js "/" ++ format ++ js "/" ++ filename.

(** The five parts of a derived key are well formed. *)
Definition valid_key_parts (subpath width height format filename : jsstring) : Prop :=
  valid_subpath subpath /\ valid_dimension width /\ valid_dimension height /\
  valid_segment format /\ valid_segment filename.

(** A dimension within the bounds of the Orchestrator. *)
Definition in_bounds (s : jsstring) : Prop := (0 < decimal s <= 4000)%Z.

(** The store of [cover_world] with writes refused. *)
Definition readonly_world : OriginResponse.world :=
  OriginResponse.mkWorld
    (OriginResponse.get_object cover_world)
    (fun _ _ _ _ _ _ => Rejected (ServiceError (js "AccessDenied")))
    (OriginResponse.sharp_pipeline cover_world).

(** Run the Orchestrator's monadic code down to its result record; [step]
    goes on after a case distinction. *)
Ltac step := cbv beta iota zeta; cbn [app outcome trace detached final_state].

Ltac run_handler :=
  cbv [OriginResponse.handler bind ret throw try_catch emit_event console_log
       console_error get_state put_state await catch_detached OriginResponse.send];
  step.

(** * Properties *)

(** ** Strings *)

Lemma js_cons (a : ascii) (s : string) : js (String a s) = chr a :: js s.
Proof. reflexivity. Qed.

Lemma lacks_class (c : N) (s : jsstring) :
  lacks c s <-> forallb (class_mem (NotChr c)) s = true.
Proof.
  unfold lacks. induction s as [|x s IH]; simpl.
  - tauto.
  - rewrite andb_true_iff, <- IH, negb_true_iff, N.eqb_neq. intuition congruence.
Qed.

Lemma lacks_app (c : N) (s t : jsstring) :
  lacks c (s ++ t) <-> lacks c s /\ lacks c t.
Proof. unfold lacks. rewrite in_app_iff. tauto. Qed.

Lemma digits_lack (c : N) (s : jsstring) :
  all_digits s -> is_digit c = false -> lacks c s.
Proof.
  unfold all_digits, lacks. intros Hs Hc Hin.
  rewrite forallb_forall in Hs. apply Hs in Hin. congruence.
Qed.

Lemma count_app (c : N) (s t : jsstring) :
  count c (s ++ t) = (count c s + count c t)%nat.
Proof. induction s as [|x s IH]; simpl; [reflexivity|]. rewrite IH. lia. Qed.

Lemma lacks_count (c : N) (s : jsstring) : lacks c s -> count c s = 0%nat.
Proof.
  unfold lacks. induction s as [|x s IH]; simpl; intros H; [reflexivity|].
  destruct (N.eqb_spec x c) as [->|_]; [exfalso; apply H; now left|].
  apply IH. intros Hin. apply H. now right.
Qed.

(** Two ways of cutting one string: the longer first part extends the
    shorter one. *)
Lemma app_longer {A} (a b a' b' : list A) :
  a ++ b = a' ++ b' -> (length a < length a')%nat ->
  exists m, m <> [] /\ a' = a ++ m /\ b = m ++ b'.
Proof.
  intros E L. apply app_eq_app in E as [m [[-> ->] | [-> ->]]].
  - rewrite length_app in L. lia.
  - exists m. repeat split; trivial. intros ->. rewrite app_nil_r in L. lia.
Qed.

(** A string is cut at the last occurrence of [c] in one way only. *)
Lemma cut_at_last_unique (c : N) (x y x' y' : jsstring) :
  x ++ c :: y = x' ++ c :: y' -> lacks c y -> lacks c y' ->
  x = x' /\ y = y'.
Proof.
  unfold lacks. intros E Hy Hy'.
  apply app_eq_app in E as [m [[-> E] | [-> E]]]; destruct m as [|d m]; simpl in E.
  - injection E as ->. now rewrite app_nil_r.
  - injection E as _ ->. exfalso. apply Hy'. rewrite in_app_iff. right. now left.
  - injection E as ->. now rewrite app_nil_r.
  - injection E as _ ->. exfalso. apply Hy. rewrite in_app_iff. right. now left.
Qed.

(** [split] on a string [a ++ sep ++ b] whose halves lack the separator. *)
Lemma split_lacking (sep : N) (s : jsstring) :
  lacks sep s -> split sep s = [s].
Proof.
  unfold lacks. induction s as [|c s IH]; simpl; intros H; [reflexivity|].
  destruct (N.eqb_spec c sep) as [->|_]; [exfalso; apply H; now left|].
  rewrite IH; [reflexivity|]. intros Hin. apply H. now right.
Qed.

Lemma split_two (sep : N) (a b : jsstring) :
  lacks sep a -> lacks sep b -> split sep (a ++ sep :: b) = [a; b].
Proof.
  unfold lacks. induction a as [|c a IH]; simpl; intros Ha Hb.
  - rewrite N.eqb_refl, split_lacking; trivial.
  - destruct (N.eqb_spec c sep) as [->|_]; [exfalso; apply Ha; now left|].
    rewrite IH; trivial. intros Hin. apply Ha. now right.
Qed.

Lemma split_nonempty (sep : N) (s : jsstring) : split sep s <> [].
Proof.
  induction s as [|c s IH]; simpl; [discriminate|].
  destruct (N.eqb c sep); [discriminate|].
  destruct (split sep s); [contradiction|discriminate].
Qed.

(** ** The matcher *)

Section Greedy.
Context {R : Type}.
Variables (k : cclass) (cont : jsstring -> jsstring -> option R).

(** A group that matches has taken a non-empty run of its class, after
    which the rest of the pattern matched. *)
Lemma greedy_sound (s acc : jsstring) (r : R) :
  greedy k cont acc s = Some r ->
  exists a b, s = a ++ b /\ a <> [] /\ forallb (class_mem k) a = true /\
              cont (acc ++ a) b = Some r.
Proof.
  revert acc. induction s as [|c s IH]; simpl; intros acc H; [discriminate|].
  destruct (class_mem k c) eqn:Hc; [|discriminate].
  destruct (greedy k cont (acc ++ [c]) s) as [r'|] eqn:G.
  - injection H as ->. apply IH in G as (a & b & -> & _ & Ha & Hk).
    exists (c :: a), b. rewrite <- app_assoc in Hk. simpl in *.
    rewrite Hc, Ha. repeat split; trivial. discriminate.
  - exists [c], s. simpl. rewrite Hc. repeat split; trivial. discriminate.
Qed.

Lemma greedy_none (s acc : jsstring) :
  (forall a b, s = a ++ b -> a <> [] -> forallb (class_mem k) a = true ->
               cont (acc ++ a) b = None) ->
  greedy k cont acc s = None.
Proof.
  intros H. destruct (greedy k cont acc s) as [r|] eqn:G; [|reflexivity].
  apply greedy_sound in G as (a & b & E & Hne & Ha & Hk).
  rewrite (H a b E Hne Ha) in Hk. discriminate.
Qed.

(** The group takes [a] when the rest of the pattern matches after [a]
    and after no longer run. *)
Lemma greedy_longest (a b acc : jsstring) (r : R) :
  a <> [] -> forallb (class_mem k) a = true ->
  cont (acc ++ a) b = Some r ->
  (forall a' b', a ++ b = a' ++ b' -> (length a < length a')%nat ->
                 forallb (class_mem k) a' = true -> cont (acc ++ a') b' = None) ->
  greedy k cont acc (a ++ b) = Some r.
Proof.
  revert acc. induction a as [|c a IH]; intros acc Hne Ha Hk Hlong; [contradiction|].
  simpl in Ha. apply andb_true_iff in Ha as [Hc Ha]. simpl. rewrite Hc.
  destruct a as [|c' a].
  - simpl in *. rewrite greedy_none; [exact Hk|].
    intros a' b' E Hne' Ha'.
    specialize (Hlong (c :: a') b'). rewrite <- app_assoc. simpl.
    apply Hlong; simpl; [now rewrite E| |now rewrite Hc].
    destruct a'; [contradiction|simpl; lia].
  - rewrite IH; trivial.
    + discriminate.
    + now rewrite <- app_assoc.
    + intros a' b' E L Ha'. rewrite <- app_assoc. simpl.
      apply Hlong; [change (c :: (c' :: a) ++ b = c :: a' ++ b'); now rewrite E
                   |simpl in *; lia|simpl; now rewrite Hc].
Qed.
End Greedy.

Lemma run_sound (p : regex) : forall i s caps out,
  run p i s caps = Some out -> accepts p i s caps out.
Proof.
  induction p as [|n p IH]; intros i s caps out H; simpl in *.
  - congruence.
  - destruct n.
    + destruct s as [|x s]; [discriminate|].
      destruct (N.eqb_spec x c) as [->|_]; [|discriminate]. eauto.
    + apply greedy_sound in H as (a & b & -> & Hne & Ha & Hk).
      exists a, b. auto.
    + destruct (Nat.eqb_spec i 0) as [->|_]; [|discriminate]. auto.
    + destruct s; [|discriminate]. auto.
Qed.

Lemma run_chr (c : N) (p : regex) (i : nat) (s : jsstring) (caps : list jsstring) :
  run (Chr c :: p) i (c :: s) caps = run p (S i) s caps.
Proof. simpl. now rewrite N.eqb_refl. Qed.

(** A group followed by the rest of the pattern: [a] is what the group
    captures when the rest matches after [a] and after no longer run. *)
Lemma run_group (k : cclass) (p : regex) (i : nat) (a b : jsstring)
      (caps : list jsstring) (out : list jsstring * jsstring) :
  a <> [] -> forallb (class_mem k) a = true ->
  run p (i + length a)%nat b (caps ++ [a]) = Some out ->
  (forall a' b' out', a ++ b = a' ++ b' -> (length a < length a')%nat ->
                 forallb (class_mem k) a' = true ->
                 accepts p (i + length a')%nat b' (caps ++ [a']) out' -> False) ->
  run (Group k :: p) i (a ++ b) caps = Some out.
Proof.
  intros Hne Ha Hk Hlong. simpl.
  apply (greedy_longest k _ a b [] out); trivial.
  intros a' b' E L Ha'. simpl.
  destruct (run p (i + length a') b' (caps ++ [a'])) as [out'|] eqn:Hr; [|reflexivity].
  exfalso. apply run_sound in Hr. eauto.
Qed.

(** The last group of a pattern, before [$]: it takes all that is left. *)
Lemma run_group_eos (k : cclass) (i : nat) (a : jsstring) (caps : list jsstring) :
  a <> [] -> forallb (class_mem k) a = true ->
  run [Group k; Eos] i a caps = Some (caps ++ [a], []).
Proof.
  intros Hne Ha. rewrite <- (app_nil_r a) at 1.
  apply run_group; trivial.
  intros a' b' out' E L _ _. apply (f_equal (@length N)) in E.
  rewrite !length_app in E. simpl in E. lia.
Qed.

Lemma exec_from_hit (p : regex) (i : nat) (s : jsstring) (caps : list jsstring) :
  run p i s [] = Some (caps, []) -> exec_from p i s = Some (s :: caps).
Proof.
  intros H.
  assert (E : exec_from p i s = Some (firstn (length s - 0) s :: caps))
    by (destruct s; simpl exec_from; now rewrite H).
  now rewrite E, Nat.sub_0_r, firstn_all.
Qed.

(** ** The two key grammars *)

(** A path [/{subpath}/{filename}.{extension}] matches the Rewriter's
    pattern, and the groups are its three parts: the split is at the last
    dot and at the slash before the filename. *)
Lemma uri_pattern_match (subpath filename extension : jsstring) :
  subpath <> [] -> one_line subpath ->
  filename <> [] -> lacks (chr "/") filename ->
  extension <> [] -> lacks (chr ".") extension ->
  let uri := js "/" ++ subpath ++ js "/" ++ filename ++ js "." ++ extension in
  str_match uri ViewerRequest.uri_pattern = Some [uri; subpath; filename; extension].
Proof.
  intros Hsp Hline Hfn Hfn' Hext Hext' uri. subst uri.
  change (js "/" ++ subpath ++ js "/" ++ filename ++ js "." ++ extension)
    with (chr "/" :: subpath ++ chr "/" :: filename ++ chr "." :: extension).
  apply exec_from_hit. unfold ViewerRequest.uri_pattern.
  rewrite run_chr. apply run_group; trivial.
  - rewrite run_chr. apply run_group; trivial.
    + now apply lacks_class.
    + rewrite run_chr. rewrite run_group_eos; trivial. now apply lacks_class.
    + intros a' b' out' E L _ H. simpl in H.
      destruct H as (s' & -> & e & b & -> & _ & He & _).
      apply app_longer in E as (m & Hm & -> & E); trivial.
      destruct m as [|c m]; [contradiction|]. injection E as <- ->.
      apply Hext'. rewrite in_app_iff. right. now left.
  - intros a' b' out' E L _ H. simpl in H.
    destruct H as (s' & -> & f & b & -> & _ & Hf & s'' & -> & e & b0 & -> & _ & He & -> & _).
    apply app_longer in E as (m & Hm & -> & E); trivial.
    destruct m as [|c m]; [contradiction|]. injection E as <- E.
    rewrite app_nil_r in E.
    assert (E' : filename ++ chr "." :: extension = (m ++ chr "/" :: f) ++ chr "." :: e)
      by now rewrite <- app_assoc.
    apply cut_at_last_unique in E' as [-> _]; trivial.
    + apply Hfn'. rewrite in_app_iff. right. now left.
    + now apply lacks_class.
Qed.

Lemma run_bos (p : regex) (s : jsstring) (caps : list jsstring) :
  run (Bos :: p) 0 s caps = run p 0 s caps.
Proof. reflexivity. Qed.

(** A group stops in front of a character that is not of its class. *)
Lemma run_group_stop (k : cclass) (p : regex) (i : nat) (a : jsstring) (c : N)
      (b : jsstring) (caps : list jsstring) (out : list jsstring * jsstring) :
  a <> [] -> forallb (class_mem k) a = true -> class_mem k c = false ->
  run p (i + length a)%nat (c :: b) (caps ++ [a]) = Some out ->
  run (Group k :: p) i (a ++ c :: b) caps = Some out.
Proof.
  intros Hne Ha Hc Hk. apply run_group; trivial.
  intros a' b' out' E L Ha' _.
  apply app_longer in E as (m & Hm & -> & E); trivial.
  destruct m as [|d m]; [contradiction|]. injection E as <- _.
  rewrite forallb_app in Ha'. simpl in Ha'. rewrite Hc in Ha'.
  now rewrite andb_false_r in Ha'.
Qed.

(** A derived key [resize/{subpath}/{width}x{height}/{format}/{filename}]
    matches the Orchestrator's pattern, and the groups are its five
    parts. *)
Lemma key_pattern_match (subpath width height format filename : jsstring) :
  subpath <> [] -> one_line subpath ->
  width <> [] -> all_digits width ->
  height <> [] -> all_digits height ->
  format <> [] -> lacks (chr "/") format ->
  filename <> [] -> lacks (chr "/") filename -> one_line filename ->
  let key := js "resize/" ++ subpath ++ js "/" ++ width ++ js "x" ++ height ++
             js "/" ++ format ++ js "/" ++ filename in
  str_match key OriginResponse.KEY_PATTERN =
  Some [key; subpath; width; height; format; filename].
Proof.
  intros Hsp Hline Hw Hw' Hh Hh' Hf Hf' Hn Hn' Hn'' key. subst key.
  apply exec_from_hit.
  unfold OriginResponse.KEY_PATTERN, lits.
  cbn [js list_ascii_of_string List.map app].
  rewrite run_bos, !run_chr. apply run_group; trivial.
  - rewrite run_chr. apply run_group_stop; trivial.
    rewrite run_chr. apply run_group_stop; trivial.
    rewrite run_chr. apply run_group_stop; trivial.
    + now apply lacks_class.
    + rewrite run_chr. now rewrite run_group_eos.
  - intros a' b' out' E L _ H. simpl in H.
    destruct H as (s1 & -> & W & b1 & -> & _ & _ & s2 & -> & H & b2 & -> & _ & _ &
                   s3 & -> & F & b3 & -> & _ & _ & s4 & -> & Nm & b4 & -> & _).
    apply app_longer in E as (m & Hm & -> & E); trivial.
    destruct m as [|c m]; [contradiction|]. injection E as <- E.
    apply (f_equal (count (chr "/"))) in E.
    repeat (rewrite ?count_app in E; cbn [count] in E).
    change (N.eqb (chr "/") (chr "/")) with true in E.
    change (N.eqb (chr "x") (chr "/")) with false in E.
    rewrite (lacks_count _ width), (lacks_count _ height),
            (lacks_count _ format), (lacks_count _ filename) in E;
      trivial; try (now apply digits_lack).
    lia.
Qed.

Lemma exec_from_sound (p : regex) (s : jsstring) : forall i m,
  exec_from p i s = Some m ->
  exists pre s' caps rest,
    s = pre ++ s' /\ run p (i + length pre)%nat s' [] = Some (caps, rest) /\
    m = firstn (length s' - length rest) s' :: caps.
Proof.
  induction s as [|c s IH]; intros i m H; simpl in H.
  - destruct (run p i [] []) as [[caps rest]|] eqn:Hr; [|discriminate].
    injection H as <-. exists [], [], caps, rest. simpl. now rewrite Nat.add_0_r.
  - destruct (run p i (c :: s) []) as [[caps rest]|] eqn:Hr.
    + injection H as <-. exists [], (c :: s), caps, rest. simpl.
      now rewrite Nat.add_0_r.
    + apply IH in H as (pre & s' & caps & rest & -> & Hr' & ->).
      exists (c :: pre), s', caps, rest. simpl.
      now rewrite Nat.add_succ_r.
Qed.

(** A match of the Rewriter's pattern has three groups: a path without
    line terminator, a filename without slash and an extension without
    dot, none of them empty. *)
Lemma uri_match_sound (s : jsstring) (m : list jsstring) :
  str_match s ViewerRequest.uri_pattern = Some m ->
  exists whole path filename extension,
    m = [whole; path; filename; extension] /\
    path <> [] /\ one_line path /\
    filename <> [] /\ lacks (chr "/") filename /\
    extension <> [] /\ lacks (chr ".") extension.
Proof.
  intros H. apply exec_from_sound in H as (pre & s' & caps & rest & _ & Hr & ->).
  apply run_sound in Hr. simpl in Hr.
  destruct Hr as (s1 & -> & a & b1 & -> & Ha & Ha' & s2 & -> & f & b2 & -> & Hf & Hf' &
                  s3 & -> & e & b3 & -> & He & He' & -> & Hout).
  injection Hout as -> ->. simpl.
  eexists _, a, f, e. split; [reflexivity|].
  repeat split; trivial; now apply lacks_class.
Qed.

(** A match of the Orchestrator's pattern has five groups; the two
    dimensions are non-empty runs of digits. *)
Lemma key_match_sound (s : jsstring) (m : list jsstring) :
  str_match s OriginResponse.KEY_PATTERN = Some m ->
  exists subpath width height format filename,
    m = [s; subpath; width; height; format; filename] /\
    s = js "resize/" ++ subpath ++ js "/" ++ width ++ js "x" ++ height ++
        js "/" ++ format ++ js "/" ++ filename /\
    subpath <> [] /\ width <> [] /\ all_digits width /\
    height <> [] /\ all_digits height /\
    format <> [] /\ lacks (chr "/") format /\ filename <> [].
Proof.
  intros H. apply exec_from_sound in H as (pre & s' & caps & rest & -> & Hr & ->).
  apply run_sound in Hr.
  unfold OriginResponse.KEY_PATTERN, lits in Hr.
  cbn [js list_ascii_of_string List.map app] in Hr. simpl in Hr.
  destruct Hr as (Hi & s1 & -> & s2 & -> & s3 & -> & s4 & -> & s5 & -> & s6 & -> & s7 & -> &
                  sp & b1 & -> & Hsp & _ & s8 & -> & w & b2 & -> & Hw & Hw' &
                  s9 & -> & h & b3 & -> & Hh & Hh' & s10 & -> & f & b4 & -> & Hf & Hf' &
                  s11 & -> & n & b5 & -> & Hn & _ & -> & Hout).
  destruct pre; [|discriminate]. injection Hout as -> ->. simpl.
  exists sp, w, h, f, n. rewrite firstn_all, !app_nil_r.
  repeat split; trivial; now apply lacks_class.
Qed.

(** ** The URI Rewriter *)

Section Rewriter.
Import ViewerRequest Request.

(** [params.get(name)] answers exactly when [params.has(name)] does. *)
Lemma has_iff_get (params : list (jsstring * jsstring)) (name : jsstring) :
  URLSearchParams.has params name = true <->
  exists v, URLSearchParams.get params name = Some v.
Proof.
  unfold URLSearchParams.has, URLSearchParams.get.
  induction params as [|[n v] params IH]; simpl.
  - split; [discriminate|]. intros [v H]. discriminate.
  - destruct (str_eqb n (URLSearchParams.usv name)); simpl.
    + split; eauto.
    + exact IH.
Qed.

(** The request the handler returns, as a function of what it found. *)
Lemma handler_unfold (r : Request.t) :
  handler (mkCf r) tt =
  match d_param r, str_match (uri r) uri_pattern with
  | None, _ => ret r tt
  | Some _, None => ret r tt
  | Some d, Some uriMatch =>
      let dimension := split (chr "x") d in
      if negb (Nat.eqb (length dimension) 2) then ret r tt
      else
        let r' :=
          set_uri (js "/resize/" ++ at_index uriMatch 1 ++ js "/" ++
                   at_index dimension 0 ++ js "x" ++ at_index dimension 1 ++
                   js "/" ++ negotiate (acceptHeader r) (at_index uriMatch 3) ++
                   js "/" ++ at_index uriMatch 2 ++ js "." ++ at_index uriMatch 3) r in
        mkResult tt [ConsoleLog [LStr (uri r')]] [] (Return r')
  end.
Proof.
  unfold handler, d_param. cbn [request].
  destruct (URLSearchParams.has _ _) eqn:Hhas.
  - apply has_iff_get in Hhas as [d Hd]. rewrite Hd. cbn [negb].
    destruct (str_match _ _) as [uriMatch|]; [|reflexivity].
    cbv [bind ret]. cbn [outcome final_state trace detached].
    destruct (Nat.eqb _ 2); reflexivity.
  - destruct (URLSearchParams.get _ _) as [d|] eqn:Hd; [|reflexivity].
    assert (URLSearchParams.has (URLSearchParams.new (querystring r)) (js "d") = true)
      by (apply has_iff_get; eauto).
    congruence.
Qed.
End Rewriter.

Section RewriterClaims.
Import ViewerRequest Request.

Lemma negotiate_spec (r : Request.t) (extension : jsstring) :
  negotiate (acceptHeader r) extension = negotiated_format r extension.
Proof. unfold negotiate, negotiated_format. now destruct (acceptHeader r). Qed.

(** The rewriting step on its own: the whole result of the handler when
    the request has a [d] value of two parts and a URI that matches. *)
Lemma handler_rewrites
      (r : Request.t) (whole subpath filename extension d dim0 dim1 : jsstring) :
  d_param r = Some d ->
  str_match (uri r) uri_pattern = Some [whole; subpath; filename; extension] ->
  split (chr "x") d = [dim0; dim1] ->
  let u := js "/resize/" ++ subpath ++ js "/" ++ dim0 ++ js "x" ++ dim1 ++
           js "/" ++ negotiated_format r extension ++ js "/" ++
           filename ++ js "." ++ extension in
  handler (mkCf r) tt =
  mkResult tt [ConsoleLog [LStr u]] [] (Return (set_uri u r)).
Proof.
  intros Hd Hm Hs. rewrite handler_unfold, Hd, Hm. cbn zeta. rewrite Hs.
  cbn [length Nat.eqb negb at_index nth]. now rewrite negotiate_spec.
Qed.

(** C1. A request with a [d] parameter, whose URI matches the pattern with
    groups subpath, filename and extension, and whose [d] value splits on
    [x] into dim0 and dim1, comes back with the uri
    [/resize/{subpath}/{dim0}x{dim1}/{format}/{filename}.{extension}],
    where format is [webp] if the accept header value contains [webp] and
    the extension otherwise; query string, method and headers are those
    of the input. *)
Theorem rewriter_rewrites_uri
        (r : Request.t) (whole subpath filename extension d dim0 dim1 : jsstring) :
  d_param r = Some d ->
  str_match (uri r) uri_pattern = Some [whole; subpath; filename; extension] ->
  split (chr "x") d = [dim0; dim1] ->
  exists r',
    outcome (handler (mkCf r) tt) = Return r' /\
    uri r' = js "/resize/" ++ subpath ++ js "/" ++ dim0 ++ js "x" ++ dim1 ++
             js "/" ++ negotiated_format r extension ++ js "/" ++
             filename ++ js "." ++ extension /\
    querystring r' = querystring r /\ method r' = method r /\
    headers r' = headers r.
Proof.
  intros Hd Hm Hs. rewrite (handler_rewrites r _ _ _ _ _ _ _ Hd Hm Hs).
  cbn [outcome]. eexists. split; [reflexivity|]. repeat split.
Qed.

Lemma rewriter_rewrites_uri_witness :
  exists r',
    outcome (handler (mkCf cover_request) tt) = Return r' /\
    uri r' = js "/resize/blog/posts/300x300/webp/cover.jpg" /\
    querystring r' = querystring cover_request /\
    method r' = method cover_request /\
    headers r' = headers cover_request.
Proof.
  exact (rewriter_rewrites_uri cover_request (js "/blog/posts/cover.jpg")
           (js "blog/posts") (js "cover") (js "jpg") (js "300x300")
           (js "300") (js "300") eq_refl eq_refl eq_refl).
Defined.

(** C3, counterexample. [d=300x] splits into ["300"; ""]: two parts, one
    of them empty.  The handler only counts the parts, so the request is
    rewritten to [/resize/image/300x/png/test.png]. *)
Lemma rewriter_rewrites_empty_part :
  d_param no_height_request = Some (js "300x") /\
  split (chr "x") (js "300x") = [js "300"; []] /\
  outcome (handler (mkCf no_height_request) tt) =
    Return (set_uri (js "/resize/image/300x/png/test.png") no_height_request) /\
  ~ passes_malformed_d_through no_height_request.
Proof.
  assert (Hd : d_param no_height_request = Some (js "300x")) by reflexivity.
  assert (Hs : split (chr "x") (js "300x") = [js "300"; []]) by reflexivity.
  assert (Hr : outcome (handler (mkCf no_height_request) tt) =
               Return (set_uri (js "/resize/image/300x/png/test.png") no_height_request)).
  { rewrite handler_unfold, Hd.
    change (str_match (uri no_height_request) uri_pattern)
      with (Some [js "/image/test.png"; js "image"; js "test"; js "png"]).
    cbn zeta. rewrite Hs. reflexivity. }
  repeat split; trivial.
  intros H. specialize (H _ Hd). rewrite Hr, Hs in H.
  assert (Hne : ~ two_nonempty_parts [js "300"; []]).
  { intros (a & b & E & _ & Hb). injection E as _ <-. now apply Hb. }
  apply H in Hne.
  assert (E : uri (set_uri (js "/resize/image/300x/png/test.png") no_height_request) =
              uri no_height_request) by congruence.
  discriminate E.
Qed.

(** C3, amended. When the [d] value does not split on [x] into exactly two
    parts, empty or not, the request comes back as it was. *)
Theorem rewriter_passes_through_part_count (r : Request.t) (d : jsstring) :
  d_param r = Some d ->
  length (split (chr "x") d) <> 2%nat ->
  outcome (handler (mkCf r) tt) = Return r.
Proof.
  intros Hd Hn. rewrite handler_unfold, Hd.
  destruct (str_match (uri r) uri_pattern); [|reflexivity].
  cbn zeta. apply Nat.eqb_neq in Hn. now rewrite Hn.
Qed.

Lemma rewriter_passes_through_part_count_witness :
  outcome (handler (mkCf invalid_request) tt) = Return invalid_request.
Proof.
  apply (rewriter_passes_through_part_count invalid_request (js "invalid")).
  - reflexivity.
  - vm_compute. discriminate.
Defined.

(** C9. The Rewriter returns for every request, never throws, and what it
    returns is the request itself or the request with a new uri. *)
Theorem rewriter_total (r : Request.t) :
  exists r',
    outcome (handler (mkCf r) tt) = Return r' /\
    (r' = r \/ exists u, r' = set_uri u r).
Proof.
  rewrite handler_unfold.
  destruct (d_param r) as [d|]; [|eauto].
  destruct (str_match (uri r) uri_pattern); [|eauto].
  cbn zeta. destruct (negb _); cbn [outcome ret]; eauto.
Qed.

(** The scenarios of the specification and the cases of the repository's
    own debug script, run through the handler. *)
Example rewriter_scenarios :
  Forall (fun '(uri, querystring, accept, expected) =>
            option_map Request.uri
              (match outcome (handler (mkCf (get_request uri querystring accept)) tt) with
               | Return r' => Some r'
               | Throw _ => None
               end) = Some (js expected))
         [("/blog/posts/cover.jpg", "d=300x300", "text/html,image/webp,*/*",
           "/resize/blog/posts/300x300/webp/cover.jpg");
          ("/image/test.png", "d=200x200", "text/html,*/*",
           "/resize/image/200x200/png/test.png");
          ("/image/test.png", "", "text/html,image/webp,*/*", "/image/test.png");
          ("/image/test.png", "d=invalid", "text/html,image/webp,*/*",
           "/image/test.png");
          ("/assets/images/gallery/photo-001.jpg", "d=800x600",
           "image/webp,image/apng,image/*,*/*",
           "/resize/assets/images/gallery/800x600/webp/photo-001.jpg");
          ("/image/test.png", "d=x300", "text/html,*/*",
           "/resize/image/x300/png/test.png");
          ("/test.png", "d=300x300", "text/html,*/*", "/test.png")]%string.
Proof. repeat constructor. Qed.

Lemma negotiated_format_segment (r : Request.t) (extension : jsstring) :
  valid_segment extension -> valid_segment (negotiated_format r extension).
Proof.
  intros H. unfold negotiated_format.
  destruct (acceptHeader r) as [accept|]; trivial.
  destruct (includes accept (js "webp")); trivial.
  repeat split; [discriminate|now apply lacks_class].
Qed.

(** C8. For a valid subpath, width, height, filename and extension, the
    uri the Rewriter produces, without its leading slash, matches the
    Orchestrator's key pattern; the whole match is that very string, and
    the groups are the subpath, the width, the height, the format the
    Rewriter chose, and the filename with its extension. *)
Theorem derived_key_round_trip
        (r : Request.t) (subpath width height filename extension : jsstring) :
  valid_subpath subpath -> valid_dimension width -> valid_dimension height ->
  valid_filename filename extension ->
  uri r = js "/" ++ subpath ++ js "/" ++ filename ++ js "." ++ extension ->
  d_param r = Some (width ++ js "x" ++ height) ->
  exists r',
    outcome (handler (mkCf r) tt) = Return r' /\
    uri r' = js "/resize/" ++ subpath ++ js "/" ++ width ++ js "x" ++ height ++
             js "/" ++ negotiated_format r extension ++ js "/" ++
             filename ++ js "." ++ extension /\
    str_match (substring 1 (uri r')) OriginResponse.KEY_PATTERN =
    Some [substring 1 (uri r'); subpath; width; height;
          negotiated_format r extension; filename ++ js "." ++ extension].
Proof.
  intros [Hsp Hsp'] [Hw Hw'] [Hh Hh'] [(Hf & Hf' & Hf'') [(He & He' & He'') Hdot]] Huri Hd.
  pose proof (negotiated_format_segment r extension (conj He (conj He' He'')))
    as (Hn & Hn' & _).
  assert (Hm : str_match (uri r) uri_pattern = Some [uri r; subpath; filename; extension])
    by (rewrite Huri; now apply uri_pattern_match).
  assert (Hs : split (chr "x") (width ++ js "x" ++ height) = [width; height])
    by (apply split_two; now apply digits_lack).
  rewrite (handler_rewrites r _ _ _ _ _ _ _ Hd Hm Hs). cbn [outcome].
  eexists. split; [reflexivity|]. split; [reflexivity|]. cbn [uri set_uri].
  change (substring 1 (js "/resize/" ++ ?x)) with (js "resize/" ++ x).
  apply key_pattern_match; trivial.
  - destruct filename; discriminate.
  - apply lacks_app. split; trivial.
    change (js "." ++ extension) with (chr "." :: extension).
    intros [E|Hin]; [discriminate E|]. now apply He'.
  - unfold one_line in *. rewrite forallb_app, Hf''. exact He''.
Qed.

Lemma derived_key_round_trip_witness :
  exists r',
    outcome (handler (mkCf cover_request) tt) = Return r' /\
    uri r' = js "/resize/blog/posts/300x300/webp/cover.jpg" /\
    str_match (substring 1 (uri r')) OriginResponse.KEY_PATTERN =
    Some [substring 1 (uri r'); js "blog/posts"; js "300"; js "300";
          js "webp"; js "cover.jpg"].
Proof.
  assert (L : forall c s, forallb (class_mem (NotChr c)) s = true -> lacks c s)
    by (intros c s; apply lacks_class).
  apply (derived_key_round_trip cover_request (js "blog/posts") (js "300")
           (js "300") (js "cover") (js "jpg"));
    repeat split; try discriminate; try reflexivity; apply L; reflexivity.
Defined.

(** Outside these conditions the two patterns can disagree.  In
    [/x/a.b/c] the Rewriter takes [b/c] for the extension, and, without
    WebP, for the format; the Orchestrator then reads the format [b] and
    the filename [c/a.b/c]. *)
Example slash_in_extension :
  let r := get_request "/x/a.b/c" "d=300x300" "text/html,*/*" in
  str_match (uri r) uri_pattern = Some [js "/x/a.b/c"; js "x"; js "a"; js "b/c"] /\
  outcome (handler (mkCf r) tt) = Return (set_uri (js "/resize/x/300x300/b/c/a.b/c") r) /\
  str_match (js "resize/x/300x300/b/c/a.b/c") OriginResponse.KEY_PATTERN =
  Some [js "resize/x/300x300/b/c/a.b/c"; js "x"; js "300"; js "300"; js "b";
        js "c/a.b/c"].
Proof. repeat split. Qed.
End RewriterClaims.

(** ** The Resize Orchestrator *)

Section OrchestratorClaims.
Import OriginResponse.

Lemma strict_neq_str_spec (v : status_value) (s : jsstring) :
  strict_neq_str v s = false <-> v = StatusStr s.
Proof.
  destruct v as [t|n]; simpl; [|split; discriminate].
  unfold str_eqb. rewrite negb_false_iff, bool_decide_eq_true.
  split; congruence.
Qed.

Lemma not_found_class_spec (s : status_value) :
  strict_neq_str s (js "404") && strict_neq_str s (js "403") = false <->
  not_found_class s.
Proof.
  unfold not_found_class.
  rewrite andb_false_iff, !strict_neq_str_spec. tauto.
Qed.

(** One invocation on any other status: nothing is logged or sent. *)
Lemma handler_other_status (w : world) (ev : cf) (st : module_state) :
  ~ not_found_class (Response.status (response ev)) ->
  handler w ev st = mkResult (Some (client_of st)) [] [] (Return (response ev)).
Proof.
  intros H. rewrite <- not_found_class_spec in H. apply not_false_is_true in H.
  destruct st as [c|]; run_handler; rewrite H; reflexivity.
Qed.

(** C4. When the status of the triggering response is not in the not-found
    class, the handler returns that response and sends nothing to the
    object store: it does nothing at all that can be observed. *)
Theorem orchestrator_passes_other_statuses (w : world) (ev : cf) (st : module_state) :
  ~ not_found_class (Response.status (response ev)) ->
  outcome (handler w ev st) = Return (response ev) /\
  s3_commands (trace (handler w ev st)) = [] /\
  trace (handler w ev st) = [] /\ detached (handler w ev st) = [].
Proof.
  intros H. rewrite (handler_other_status w ev st H). repeat split.
Qed.

Lemma orchestrator_passes_other_statuses_witness :
  outcome (handler cover_world server_error_event None) =
    Return (response server_error_event) /\
  s3_commands (trace (handler cover_world server_error_event None)) = [] /\
  trace (handler cover_world server_error_event None) = [] /\
  detached (handler cover_world server_error_event None) = [].
Proof.
  apply (orchestrator_passes_other_statuses cover_world server_error_event None).
  intros [H | H]; discriminate H.
Defined.

(** One invocation on a not-found status, step by step: what is logged
    and sent, in order, and what comes back. *)
Lemma handler_not_found (w : world) (ev : cf) (st : module_state) :
  not_found_class (Response.status (response ev)) ->
  handler w ev st =
  let c := client_of st in
  let key := derived_key ev in
  let found := ConsoleLog [LStr (js "Not Found. key:"); LStr key] in
  match str_match key KEY_PATTERN with
  | None =>
      mkResult (Some c) [found; ConsoleLog [LStr (js "Invalid key format")]] []
               (Return (response ev))
  | Some m =>
      let width := parseInt10 (at_index m 2) in
      let height := parseInt10 (at_index m 3) in
      if bounds_violated width height then
        mkResult (Some c)
                 [found; ConsoleLog [LStr (js "Invalid dimensions:"); LNum width; LNum height]]
                 [] (Return (response ev))
      else
        let originKey := js "origin/" ++ at_index m 1 ++ js "/" ++ at_index m 5 in
        let origin := ConsoleLog [LStr (js "Origin key:"); LStr originKey] in
        let fetch := S3Send (GetObjectCommand BUCKET originKey) in
        let failed e :=
          mkResult (Some c)
                   [found; origin; fetch;
                    ConsoleError [LStr (js "Error processing image:"); LErr e]]
                   [] (Return (response ev)) in
        match get_object w c BUCKET originKey with
        | Rejected e => failed e
        | Fulfilled (Rejected e) => failed e
        | Fulfilled (Fulfilled imageBuffer) =>
            match sharp_pipeline w imageBuffer width height
                                 (mapped_format (at_index m 4)) with
            | Rejected e => failed e
            | Fulfilled resizedBuffer =>
                let contentType := js "image/" ++ mapped_format (at_index m 4) in
                mkResult (Some c)
                  [found; origin; fetch;
                   S3Send (PutObjectCommand BUCKET key resizedBuffer contentType
                                            CACHE_CONTROL)]
                  match put_object w c BUCKET key resizedBuffer contentType
                                   CACHE_CONTROL with
                  | Fulfilled _ => []
                  | Rejected e =>
                      [ConsoleError [LStr (js "Failed to upload resized image:"); LErr e]]
                  end
                  (Return (synthesized (response ev) (at_index m 4) resizedBuffer))
            end
        end
  end.
Proof.
  intros H. apply not_found_class_spec in H.
  unfold derived_key, bounds_violated, mapped_format, synthesized.
  destruct st as [c|]; run_handler; rewrite H; step;
    (destruct (str_match _ KEY_PATTERN) as [m|]; step; [|reflexivity]);
    (destruct (_ || _); step; [reflexivity|]);
    (destruct (get_object _ _ _ _) as [[imageBuffer|e]|e]; step; try reflexivity);
    (destruct (sharp_pipeline _ _ _ _ _) as [resizedBuffer|e]; step; try reflexivity);
    destruct (put_object _ _ _ _ _ _ _); reflexivity.
Qed.
Lemma mapped_format_spec (format : jsstring) :
  (format = js "jpg" -> mapped_format format = js "jpeg") /\
  (format <> js "jpg" -> mapped_format format = format).
Proof.
  unfold mapped_format, str_eqb. split; intros H.
  - now rewrite bool_decide_eq_true_2.
  - now rewrite bool_decide_eq_false_2.
Qed.

Lemma bounds_violated_spec (wz hz : Z) :
  bounds_violated (Num wz) (Num hz) = true <->
  (wz <= 0 \/ hz <= 0 \/ 4000 < wz \/ 4000 < hz)%Z.
Proof.
  unfold bounds_violated, MAX_DIMENSION. simpl.
  rewrite !orb_true_iff, !Z.leb_le, !Z.ltb_lt. tauto.
Qed.

Lemma bounds_respected_spec (wz hz : Z) :
  bounds_violated (Num wz) (Num hz) = false <->
  (0 < wz <= 4000 /\ 0 < hz <= 4000)%Z.
Proof.
  rewrite <- not_true_iff_false, bounds_violated_spec. lia.
Qed.

(** C2. On a not-found status and a path that matches the key pattern,
    when the parsed width or height is not strictly positive or exceeds
    4000, the handler returns the triggering response. *)
Theorem orchestrator_enforces_bounds
        (w : world) (ev : cf) (st : module_state)
        (whole subpath widthStr heightStr format filename : jsstring) (wz hz : Z) :
  not_found_class (Response.status (response ev)) ->
  str_match (substring 1 (Request.uri (request ev))) KEY_PATTERN =
    Some [whole; subpath; widthStr; heightStr; format; filename] ->
  parseInt10 widthStr = Num wz -> parseInt10 heightStr = Num hz ->
  (wz <= 0 \/ hz <= 0 \/ 4000 < wz \/ 4000 < hz)%Z ->
  outcome (handler w ev st) = Return (response ev).
Proof.
  intros Hs Hm Hw Hh Hb. rewrite handler_not_found by exact Hs.
  unfold derived_key. rewrite Hm. cbn [at_index nth]. rewrite Hw, Hh.
  apply bounds_violated_spec in Hb. now rewrite Hb.
Qed.

Lemma orchestrator_enforces_bounds_witness :
  outcome (handler cover_world
                   (not_found_event (js "/resize/blog/5000x5000/webp/cover.jpg")) None) =
  Return (response (not_found_event (js "/resize/blog/5000x5000/webp/cover.jpg"))).
Proof.
  apply (orchestrator_enforces_bounds _ _ _
           (js "resize/blog/5000x5000/webp/cover.jpg") (js "blog") (js "5000")
           (js "5000") (js "webp") (js "cover.jpg") 5000 5000).
  - left. reflexivity.
  - reflexivity.
  - reflexivity.
  - reflexivity.
  - lia.
Defined.

(** The dimensions the specification lists: 0, 4001 and 999999 match the
    key pattern and fail the bounds check; -1 does not match the pattern.
    Either way the triggering response comes back. *)
Example bounds_enforcement_examples :
  Forall (fun uri =>
            outcome (handler cover_world (not_found_event (js uri)) None) =
            Return (response (not_found_event (js uri))))
         ["/resize/blog/0x300/webp/cover.jpg"; "/resize/blog/300x0/webp/cover.jpg";
          "/resize/blog/4001x300/webp/cover.jpg"; "/resize/blog/300x4001/webp/cover.jpg";
          "/resize/blog/999999x300/webp/cover.jpg"; "/resize/blog/300x999999/webp/cover.jpg";
          "/resize/blog/-1x300/webp/cover.jpg"; "/resize/blog/300x-1/webp/cover.jpg"]%string.
Proof.
  repeat constructor; rewrite handler_not_found by (left; reflexivity);
    vm_compute; reflexivity.
Qed.

(** The handler after the checks, as [handler_not_found] has it. *)
Lemma handler_after_checks (w : world) (ev : cf) (st : module_state)
      (subpath widthStr heightStr format filename : jsstring) (wz hz : Z) :
  checks_pass ev subpath widthStr heightStr format filename wz hz ->
  handler w ev st =
  let c := client_of st in
  let key := substring 1 (Request.uri (request ev)) in
  let found := ConsoleLog [LStr (js "Not Found. key:"); LStr key] in
  let origin := ConsoleLog [LStr (js "Origin key:"); LStr (origin_key subpath filename)] in
  let fetch := S3Send (GetObjectCommand BUCKET (origin_key subpath filename)) in
  let failed e :=
    mkResult (Some c)
             [found; origin; fetch;
              ConsoleError [LStr (js "Error processing image:"); LErr e]]
             [] (Return (response ev)) in
  match get_object w c BUCKET (origin_key subpath filename) with
  | Rejected e => failed e
  | Fulfilled (Rejected e) => failed e
  | Fulfilled (Fulfilled imageBuffer) =>
      match sharp_pipeline w imageBuffer (Num wz) (Num hz) (mapped_format format) with
      | Rejected e => failed e
      | Fulfilled resizedBuffer =>
          let contentType := js "image/" ++ mapped_format format in
          mkResult (Some c)
            [found; origin; fetch;
             S3Send (PutObjectCommand BUCKET key resizedBuffer contentType CACHE_CONTROL)]
            match put_object w c BUCKET key resizedBuffer contentType CACHE_CONTROL with
            | Fulfilled _ => []
            | Rejected e =>
                [ConsoleError [LStr (js "Failed to upload resized image:"); LErr e]]
            end
            (Return (synthesized (response ev) format resizedBuffer))
      end
  end.
Proof.
  intros (Hs & Hm & Hw & Hh & Hwz & Hhz).
  rewrite handler_not_found by exact Hs.
  unfold derived_key, origin_key. rewrite Hm. cbn [at_index nth]. rewrite Hw, Hh.
  assert (Hb : bounds_violated (Num wz) (Num hz) = false)
    by now apply bounds_respected_spec.
  now rewrite Hb.
Qed.

Lemma cover_event_checks :
  checks_pass cover_event (js "blog") (js "300") (js "300") (js "webp")
              (js "cover.jpg") 300 300.
Proof.
  unfold checks_pass. split; [left; reflexivity|].
  repeat split; try reflexivity; lia.
Defined.

(** C5. After the checks, when the original is fetched and the transform
    succeeds, the handler returns status 200, the transformed bytes in
    base64 with the encoding marked as base64, and the headers of the
    triggering response with content-type set to the MIME type of the
    mapped format; [jpg] is mapped to [jpeg] and every other token to
    itself. *)
Theorem orchestrator_synthesizes_response
        (w : world) (ev : cf) (st : module_state)
        (subpath widthStr heightStr format filename : jsstring) (wz hz : Z)
        (imageBuffer resizedBuffer : buffer) :
  checks_pass ev subpath widthStr heightStr format filename wz hz ->
  get_object w (client_of st) BUCKET (origin_key subpath filename) =
    Fulfilled (Fulfilled imageBuffer) ->
  sharp_pipeline w imageBuffer (Num wz) (Num hz) (mapped_format format) =
    Fulfilled resizedBuffer ->
  outcome (handler w ev st) =
    Return (Response.mk
              (StatusNum 200) (js "OK")
              (<[js "content-type" :=
                   [Header.mk (Some (js "Content-Type"))
                              (js "image/" ++ mapped_format format)]]>
                 (Response.headers (response ev)))
              (Some (base64 resizedBuffer)) (Some (js "base64"))) /\
  (format = js "jpg" -> mapped_format format = js "jpeg") /\
  (format <> js "jpg" -> mapped_format format = format).
Proof.
  intros Hc Hg Hp. split; [|apply mapped_format_spec].
  rewrite (handler_after_checks w ev st _ _ _ _ _ _ _ Hc).
  cbn zeta. now rewrite Hg, Hp.
Qed.

Lemma orchestrator_synthesizes_response_witness :
  outcome (handler cover_world cover_event None) =
    Return (Response.mk
              (StatusNum 200) (js "OK")
              {[ js "content-type" :=
                   [Header.mk (Some (js "Content-Type")) (js "image/webp")] ]}
              (Some (js "/9j/")) (Some (js "base64"))).
Proof.
  apply (orchestrator_synthesizes_response cover_world cover_event None
           (js "blog") (js "300") (js "300") (js "webp") (js "cover.jpg") 300 300
           [Byte.xff; Byte.xd8; Byte.xff] [Byte.xff; Byte.xd8; Byte.xff]
           cover_event_checks eq_refl eq_refl).
Defined.

(** The handler never looks at how a [PutObjectCommand] settles: neither
    what it returns nor what it logs and sends before returning, nor the
    module state, depends on [put_object]. *)
Lemma handler_ignores_put_outcome (w : world) (ev : cf) (st : module_state)
      (put' : S3Client -> jsstring -> jsstring -> buffer -> jsstring -> jsstring ->
              promise unit) :
  let w' := mkWorld (get_object w) put' (sharp_pipeline w) in
  outcome (handler w' ev st) = outcome (handler w ev st) /\
  trace (handler w' ev st) = trace (handler w ev st) /\
  final_state (handler w' ev st) = final_state (handler w ev st).
Proof.
  intros w'. subst w'.
  destruct st as [c|]; run_handler;
    (destruct (_ && _); step; [auto|]);
    (destruct (str_match _ KEY_PATTERN) as [m|]; step; [|auto]);
    (destruct (_ || _); step; [auto|]);
    (destruct (get_object _ _ _ _) as [[imageBuffer|e]|e]; step; auto);
    (destruct (sharp_pipeline _ _ _ _ _) as [resizedBuffer|e]; step; auto);
    repeat match goal with
           | |- context [match ?p with Fulfilled _ => _ | Rejected _ => _ end] =>
               destruct p
           end; auto.
Qed.

(** C6. On the success path the commands sent to the object store are the
    fetch of the original and then one write: to the key of the request
    URI without its leading slash, with cache-control [max-age=86400] and
    content-type [image/{mapped format}].  What the handler returns is the
    same however that write settles. *)
Theorem orchestrator_writes_once
        (w : world) (ev : cf) (st : module_state)
        (subpath widthStr heightStr format filename : jsstring) (wz hz : Z)
        (imageBuffer resizedBuffer : buffer) :
  checks_pass ev subpath widthStr heightStr format filename wz hz ->
  get_object w (client_of st) BUCKET (origin_key subpath filename) =
    Fulfilled (Fulfilled imageBuffer) ->
  sharp_pipeline w imageBuffer (Num wz) (Num hz) (mapped_format format) =
    Fulfilled resizedBuffer ->
  s3_commands (trace (handler w ev st)) =
    [GetObjectCommand BUCKET (origin_key subpath filename);
     PutObjectCommand BUCKET (substring 1 (Request.uri (request ev))) resizedBuffer
                      (js "image/" ++ mapped_format format) (js "max-age=86400")] /\
  s3_commands (detached (handler w ev st)) = [] /\
  forall put',
    outcome (handler (mkWorld (get_object w) put' (sharp_pipeline w)) ev st) =
    outcome (handler w ev st).
Proof.
  intros Hc Hg Hp. repeat split.
  - rewrite (handler_after_checks w ev st _ _ _ _ _ _ _ Hc).
    cbn zeta. now rewrite Hg, Hp.
  - rewrite (handler_after_checks w ev st _ _ _ _ _ _ _ Hc).
    cbn zeta. rewrite Hg, Hp. cbn [detached].
    now destruct (put_object w _ _ _ _ _ _).
  - intros put'. apply handler_ignores_put_outcome.
Qed.

Lemma orchestrator_writes_once_witness :
  s3_commands (trace (handler cover_world cover_event None)) =
    [GetObjectCommand BUCKET (js "origin/blog/cover.jpg");
     PutObjectCommand BUCKET (js "resize/blog/300x300/webp/cover.jpg")
                      [Byte.xff; Byte.xd8; Byte.xff]
                      (js "image/webp") (js "max-age=86400")] /\
  s3_commands (detached (handler cover_world cover_event None)) = [] /\
  forall put',
    outcome (handler (mkWorld (get_object cover_world) put'
                              (sharp_pipeline cover_world)) cover_event None) =
    outcome (handler cover_world cover_event None).
Proof.
  apply (orchestrator_writes_once cover_world cover_event None
           (js "blog") (js "300") (js "300") (js "webp") (js "cover.jpg") 300 300
           [Byte.xff; Byte.xd8; Byte.xff] [Byte.xff; Byte.xd8; Byte.xff]
           cover_event_checks eq_refl eq_refl).
Defined.

(** The handler returns on every invocation: nothing it does can throw
    past its [try]. *)
Lemma orchestrator_total (w : world) (ev : cf) (st : module_state) :
  exists r, outcome (handler w ev st) = Return r.
Proof.
  destruct st as [c|]; run_handler;
    (destruct (_ && _); step; [eauto|]);
    (destruct (str_match _ KEY_PATTERN) as [m|]; step; [|eauto]);
    (destruct (_ || _); step; [eauto|]);
    (destruct (get_object _ _ _ _) as [[imageBuffer|e]|e]; step; eauto);
    (destruct (sharp_pipeline _ _ _ _ _) as [resizedBuffer|e]; step; eauto);
    destruct (put_object w _ _ _ _ _ _); eauto.
Qed.

(** C7. After the checks, when the fetch of the original or the transform
    fails, the handler catches the error and returns the triggering
    response: it does not throw.  The error is logged and nothing is
    written to the object store. *)
Theorem orchestrator_fails_open
        (w : world) (ev : cf) (st : module_state)
        (subpath widthStr heightStr format filename : jsstring) (wz hz : Z)
        (e : error) :
  checks_pass ev subpath widthStr heightStr format filename wz hz ->
  fetch_or_transform_fails w (client_of st) (origin_key subpath filename)
                           (Num wz) (Num hz) (mapped_format format) e ->
  outcome (handler w ev st) = Return (response ev) /\
  (forall e', outcome (handler w ev st) <> Throw e') /\
  In (ConsoleError [LStr (js "Error processing image:"); LErr e])
     (trace (handler w ev st)) /\
  s3_commands (trace (handler w ev st)) =
    [GetObjectCommand BUCKET (origin_key subpath filename)].
Proof.
  intros Hc Hf.
  assert (H : handler w ev st =
              mkResult (Some (client_of st))
                [ConsoleLog [LStr (js "Not Found. key:");
                             LStr (substring 1 (Request.uri (request ev)))];
                 ConsoleLog [LStr (js "Origin key:"); LStr (origin_key subpath filename)];
                 S3Send (GetObjectCommand BUCKET (origin_key subpath filename));
                 ConsoleError [LStr (js "Error processing image:"); LErr e]]
                [] (Return (response ev))).
  { rewrite (handler_after_checks w ev st _ _ _ _ _ _ _ Hc). cbn zeta.
    destruct Hf as [Hg | [Hg | (imageBuffer & Hg & Hp)]]; rewrite Hg; trivial.
    now rewrite Hp. }
  rewrite H. cbn [outcome trace s3_commands]. repeat split.
  - discriminate.
  - simpl. tauto.
Qed.

Lemma orchestrator_fails_open_witness :
  outcome (handler cover_world missing_event None) = Return (response missing_event) /\
  (forall e', outcome (handler cover_world missing_event None) <> Throw e') /\
  In (ConsoleError [LStr (js "Error processing image:");
                    LErr (ServiceError (js "NoSuchKey"))])
     (trace (handler cover_world missing_event None)) /\
  s3_commands (trace (handler cover_world missing_event None)) =
    [GetObjectCommand BUCKET (js "origin/blog/gone.jpg")].
Proof.
  apply (orchestrator_fails_open cover_world missing_event None
           (js "blog") (js "300") (js "300") (js "webp") (js "gone.jpg") 300 300
           (ServiceError (js "NoSuchKey"))).
  - unfold checks_pass. split; [left; reflexivity|].
    repeat split; try reflexivity; lia.
  - left. reflexivity.
Defined.

(** C10. When the key does not match the pattern, or matches it with a
    width or height out of bounds, the handler returns the triggering
    response and no command at all is sent to the object store, neither
    before it returns nor after. *)
Theorem orchestrator_checks_before_io (w : world) (ev : cf) (st : module_state) :
  (str_match (substring 1 (Request.uri (request ev))) KEY_PATTERN = None \/
   exists whole subpath widthStr heightStr format filename,
     str_match (substring 1 (Request.uri (request ev))) KEY_PATTERN =
       Some [whole; subpath; widthStr; heightStr; format; filename] /\
     bounds_violated (parseInt10 widthStr) (parseInt10 heightStr) = true) ->
  outcome (handler w ev st) = Return (response ev) /\
  s3_commands (trace (handler w ev st)) = [] /\
  s3_commands (detached (handler w ev st)) = [].
Proof.
  intros H.
  destruct (strict_neq_str (Response.status (response ev)) (js "404") &&
            strict_neq_str (Response.status (response ev)) (js "403")) eqn:Hs.
  - assert (Hn : ~ not_found_class (Response.status (response ev))).
    { rewrite <- not_found_class_spec. congruence. }
    rewrite (handler_other_status w ev st Hn). repeat split.
  - apply not_found_class_spec in Hs.
    rewrite handler_not_found by exact Hs. unfold derived_key. cbn zeta.
    destruct H as [Hm | (whole & sp & ws & hs & f & n & Hm & Hb)]; rewrite Hm.
    + repeat split.
    + cbn [at_index nth]. rewrite Hb. repeat split.
Qed.

Lemma orchestrator_checks_before_io_witness :
  outcome (handler cover_world (not_found_event (js "/image/test.png")) None) =
    Return (response (not_found_event (js "/image/test.png"))) /\
  s3_commands (trace (handler cover_world (not_found_event (js "/image/test.png")) None)) = [] /\
  s3_commands (detached (handler cover_world (not_found_event (js "/image/test.png")) None)) = [].
Proof.
  apply (orchestrator_checks_before_io cover_world
           (not_found_event (js "/image/test.png")) None).
  left. reflexivity.
Defined.
Lemma digit_not_whitespace (c : N) : is_digit c = true -> is_str_whitespace c = false.
Proof.
  unfold is_digit, is_str_whitespace. intros H.
  apply andb_true_iff in H as [H1 H2]. apply N.leb_le in H1, H2.
  repeat (apply orb_false_iff; split);
    try (apply N.eqb_neq; lia).
  apply andb_false_iff. left. apply N.leb_gt. lia.
Qed.

Lemma digits_value_some (s : jsstring) : forall a,
  (0 <= a)%Z -> exists v, digits_value (Some a) s = Some v /\ (0 <= v)%Z.
Proof.
  induction s as [|c s IH]; intros a Ha; simpl; [eauto|].
  destruct (is_digit c); [|eauto]. apply IH. lia.
Qed.

(** [parseInt] of a non-empty run of digits is a number, not [NaN], and
    not negative. *)
Lemma parseInt10_digits (s : jsstring) :
  s <> [] -> all_digits s -> exists z, parseInt10 s = Num z /\ (0 <= z)%Z.
Proof.
  unfold all_digits. destruct s as [|c s]; [contradiction|]. intros _ H.
  simpl in H. apply andb_true_iff in H as [Hc _].
  unfold parseInt10. simpl trim_start. rewrite (digit_not_whitespace c Hc).
  assert (Hc' := Hc). unfold is_digit in Hc'.
  apply andb_true_iff in Hc' as [H1 H2]. apply N.leb_le in H1, H2.
  assert (Hm : N.eqb c (chr "-") = false) by (apply N.eqb_neq; vm_compute; lia).
  assert (Hp : N.eqb c (chr "+") = false) by (apply N.eqb_neq; vm_compute; lia).
  cbv zeta. rewrite Hm, Hp. simpl digits_value. rewrite Hc.
  destruct (digits_value_some s (10 * 0 + Z.of_N (c - 48))%Z) as (v & -> & Hv); [lia|].
  exists (1 * v)%Z. split; [reflexivity|lia].
Qed.

(** A command is sent to the object store only on a not-found status,
    for a key that matches the pattern, with both dimensions parsed to
    numbers between 1 and 4000. *)
Lemma fetch_only_after_checks (w : world) (ev : cf) (st : module_state)
      (command : s3_command) :
  In command (s3_commands (trace (handler w ev st))) ->
  exists subpath widthStr heightStr format filename wz hz,
    checks_pass ev subpath widthStr heightStr format filename wz hz.
Proof.
  intros Hin.
  destruct (strict_neq_str (Response.status (response ev)) (js "404") &&
            strict_neq_str (Response.status (response ev)) (js "403")) eqn:Hs.
  - assert (Hn : ~ not_found_class (Response.status (response ev))).
    { rewrite <- not_found_class_spec. congruence. }
    rewrite (handler_other_status w ev st Hn) in Hin. contradiction.
  - apply not_found_class_spec in Hs.
    rewrite handler_not_found in Hin by exact Hs. unfold derived_key in Hin.
    cbn zeta in Hin.
    destruct (str_match _ KEY_PATTERN) as [m|] eqn:Hm; [|contradiction].
    destruct (key_match_sound _ _ Hm)
      as (sp & ws & hs & f & n & -> & _ & _ & Hw & Hw' & Hh & Hh' & _).
    destruct (parseInt10_digits ws Hw Hw') as (wz & Ewz & _).
    destruct (parseInt10_digits hs Hh Hh') as (hz & Ehz & _).
    cbn [at_index nth] in Hin. rewrite Ewz, Ehz in Hin.
    destruct (bounds_violated (Num wz) (Num hz)) eqn:Hb; [contradiction|].
    apply bounds_respected_spec in Hb as [Hwz Hhz].
    exists sp, ws, hs, f, n, wz, hz. unfold checks_pass. auto 10.
Qed.
End OrchestratorClaims.

(** * Further properties *)

(** ** Strings *)

Lemma split_cons_shape (sep : N) (s : jsstring) :
  exists p ps, split sep s = p :: ps.
Proof.
  destruct (split sep s) as [|p ps] eqn:E;
    [now apply split_nonempty in E|eauto].
Qed.

(** Joining the pieces of [split] with the separator gives the string
    back. *)
Lemma join_split (sep : N) (s : jsstring) : join sep (split sep s) = s.
Proof.
  induction s as [|c s IH]; [reflexivity|]. simpl split.
  destruct (N.eqb_spec c sep) as [->|_].
  - destruct (split_cons_shape sep s) as (p & ps & E). rewrite E in *.
    simpl. simpl in IH. now rewrite IH.
  - destruct (split_cons_shape sep s) as (p & ps & E). rewrite E in *.
    destruct ps; simpl in *; now rewrite <- IH.
Qed.

(** [split] gives one piece more than there are separators. *)
Lemma length_split (sep : N) (s : jsstring) :
  length (split sep s) = S (count sep s).
Proof.
  induction s as [|c s IH]; [reflexivity|]. simpl.
  destruct (N.eqb c sep); simpl; [now rewrite IH|].
  destruct (split_cons_shape sep s) as (p & ps & E). rewrite E in *.
  simpl in *. exact IH.
Qed.

Lemma split_one_separator (sep : N) (s : jsstring) :
  count sep s = 1%nat ->
  exists a b, split sep s = [a; b] /\ s = a ++ sep :: b.
Proof.
  intros H. pose proof (length_split sep s) as L. rewrite H in L.
  pose proof (join_split sep s) as J.
  destruct (split sep s) as [|a [|b [|c l]]]; try discriminate L.
  exists a, b. split; [reflexivity|]. now rewrite <- J.
Qed.

Lemma starts_with_spec (pre s : jsstring) :
  starts_with pre s = true <-> exists post, s = pre ++ post.
Proof.
  revert s. induction pre as [|p pre IH]; intros s; simpl.
  - split; eauto.
  - destruct s as [|c s].
    + split; [discriminate|]. intros [post H]. discriminate.
    + rewrite andb_true_iff, N.eqb_eq, IH. split.
      * intros [-> [post ->]]. eauto.
      * intros [post H]. injection H as -> ->. eauto.
Qed.

(** [s.includes(sub)] holds exactly when [sub] lies somewhere in [s]. *)
Lemma includes_spec (s sub : jsstring) :
  includes s sub = true <-> exists pre post, s = pre ++ sub ++ post.
Proof.
  induction s as [|c s IH]; simpl.
  - rewrite orb_false_r, starts_with_spec. split.
    + intros [post H]. exists [], post. exact H.
    + intros (pre & post & H). destruct pre; [eauto|discriminate].
  - rewrite orb_true_iff, starts_with_spec, IH. split.
    + intros [[post H] | (pre & post & ->)].
      * exists [], post. exact H.
      * exists (c :: pre), post. reflexivity.
    + intros (pre & post & H). destruct pre as [|x pre].
      * left. eauto.
      * right. injection H as _ ->. eauto.
Qed.


Lemma split_app_sep (sep : N) (a b : jsstring) :
  lacks sep a -> split sep (a ++ sep :: b) = a :: split sep b.
Proof.
  unfold lacks. induction a as [|c a IH]; simpl; intros Ha.
  - now rewrite N.eqb_refl.
  - destruct (N.eqb_spec c sep) as [->|_]; [exfalso; apply Ha; now left|].
    rewrite IH; [reflexivity|]. intros Hin. apply Ha. now right.
Qed.

(** ** The query string *)

Section QueryString.
Import URLSearchParams.

Lemma plain_char_spec (c : N) :
  plain_char c = true -> c < 128 /\ c <> 38 /\ c <> 43 /\ c <> 37.
Proof.
  unfold plain_char. rewrite !andb_true_iff, !negb_true_iff, !N.eqb_neq, N.ltb_lt.
  tauto.
Qed.

Lemma scalar_values_ascii (c : N) (s : jsstring) :
  c < 128 -> scalar_values (c :: s) = c :: scalar_values s.
Proof.
  intros H. simpl. unfold is_high_surrogate, is_low_surrogate.
  replace (N.leb 55296 c) with false by (symmetry; apply N.leb_gt; lia).
  replace (N.leb 56320 c) with false by (symmetry; apply N.leb_gt; lia).
  reflexivity.
Qed.

Lemma utf8_encode_ascii (a t : jsstring) :
  forallb (fun c => N.ltb c 128) a = true ->
  utf8_encode (a ++ t) = a ++ utf8_encode t.
Proof.
  unfold utf8_encode. induction a as [|c a IH]; intros H; [reflexivity|].
  simpl in H. apply andb_true_iff in H as [Hc Ha]. apply N.ltb_lt in Hc.
  rewrite <- app_comm_cons, scalar_values_ascii by exact Hc.
  cbn [List.map List.concat]. rewrite IH by exact Ha.
  unfold utf8_encode_scalar.
  replace (N.ltb c 128) with true by (symmetry; now apply N.ltb_lt).
  reflexivity.
Qed.

Lemma utf8_decode_ascii (s : jsstring) :
  forallb (fun c => N.ltb c 128) s = true -> utf8_decode s = s.
Proof.
  unfold utf8_decode. induction s as [|c s IH]; intros H; [reflexivity|].
  simpl in H. apply andb_true_iff in H as [Hc Hs]. apply N.ltb_lt in Hc.
  cbn [utf8_decode_from decoder_init bytes_needed N.eqb]. unfold lead_byte.
  replace (N.leb c 127) with true by (symmetry; apply N.leb_le; lia).
  cbn [emit List.map List.concat]. fold decoder_init. rewrite IH by exact Hs.
  unfold utf16_encode_scalar.
  replace (N.ltb c 65536) with true by (symmetry; apply N.ltb_lt; lia).
  reflexivity.
Qed.

Lemma plain_ascii (s : jsstring) :
  plain s -> forallb (fun c => N.ltb c 128) s = true.
Proof.
  unfold plain. induction s as [|c s IH]; simpl; [trivial|].
  rewrite !andb_true_iff. intros [Hc Hs]. split; [|now apply IH].
  apply plain_char_spec in Hc. apply N.ltb_lt. tauto.
Qed.

Lemma plain_lacks (s : jsstring) (c : N) :
  plain s -> plain_char c = false -> lacks c s.
Proof.
  unfold plain, lacks. intros Hs Hc Hin.
  rewrite forallb_forall in Hs. apply Hs in Hin. congruence.
Qed.

Lemma plus_to_space_plain (s : jsstring) : plain s -> plus_to_space s = s.
Proof.
  unfold plain, plus_to_space. induction s as [|c s IH]; simpl; [trivial|].
  rewrite andb_true_iff. intros [Hc Hs]. apply plain_char_spec in Hc.
  destruct (N.eqb_spec c 43); [tauto|]. now rewrite IH.
Qed.

Lemma percent_decode_plain (s : jsstring) : plain s -> percent_decode s = s.
Proof.
  unfold plain. induction s as [|c s IH]; simpl; [trivial|].
  rewrite andb_true_iff. intros [Hc Hs]. apply plain_char_spec in Hc.
  destruct (N.eqb_spec c 37); [tauto|]. now rewrite IH.
Qed.

(** A plain name or value is decoded to itself. *)
Lemma decode_component_plain (s : jsstring) : plain s -> decode_component s = s.
Proof.
  intros H. unfold decode_component.
  rewrite plus_to_space_plain, percent_decode_plain by exact H.
  now apply utf8_decode_ascii, plain_ascii.
Qed.

(** The pairs of a query string that begins with [d=v], for a plain
    [v], begin with the pair of [d] and [v]. *)
Lemma new_d_first (v tail : jsstring) :
  plain v -> tail = [] \/ (exists rest, tail = chr "&" :: rest) ->
  exists others, new (js "d=" ++ v ++ tail) = (js "d", v) :: others.
Proof.
  intros Hv Ht.
  assert (Ha : forallb (fun c => N.ltb c 128) (js "d=" ++ v) = true).
  { rewrite forallb_app. rewrite (plain_ascii v Hv). reflexivity. }
  assert (Hl : lacks 38 (js "d=" ++ v)).
  { apply lacks_app. split; [|now apply plain_lacks].
    apply lacks_class. reflexivity. }
  assert (Hc : cut_at_equals (js "d=" ++ v) = (js "d", v)) by reflexivity.
  assert (E : new (js "d=" ++ v ++ tail) =
              parse_urlencoded (utf8_encode ((js "d=" ++ v) ++ tail))) by reflexivity.
  rewrite E. clear E. unfold parse_urlencoded.
  destruct Ht as [-> | [rest ->]].
  - rewrite app_nil_r.
    replace (utf8_encode (js "d=" ++ v)) with (js "d=" ++ v)
      by (rewrite <- (app_nil_r (js "d=" ++ v)) at 2;
          now rewrite utf8_encode_ascii, app_nil_r).
    rewrite (split_lacking 38 _ Hl).
    cbn [List.filter is_nil app js list_ascii_of_string List.map negb].
    change (chr "d" :: chr "=" :: v) with (js "d=" ++ v). rewrite Hc.
    rewrite (decode_component_plain v Hv). eexists. reflexivity.
  - rewrite utf8_encode_ascii by exact Ha.
    change (chr "&" :: rest) with ([chr "&"] ++ rest).
    rewrite (utf8_encode_ascii [chr "&"] rest eq_refl).
    change ([chr "&"] ++ utf8_encode rest) with (38 :: utf8_encode rest).
    rewrite (split_app_sep 38 _ _ Hl).
    cbn [List.filter is_nil app js list_ascii_of_string List.map negb].
    change (chr "d" :: chr "=" :: v) with (js "d=" ++ v). rewrite Hc.
    rewrite (decode_component_plain v Hv). eexists. reflexivity.
Qed.
End QueryString.

(** ** The URI Rewriter, further *)

Section RewriterFurther.
Import ViewerRequest Request.

(** A string the Rewriter's pattern matches ends in
    [/{path}/{filename}.{extension}], and these are the groups. *)
Lemma uri_match_shape (s : jsstring) (m : list jsstring) :
  str_match s uri_pattern = Some m ->
  exists pre path filename extension,
    s = pre ++ js "/" ++ path ++ js "/" ++ filename ++ js "." ++ extension /\
    m = [js "/" ++ path ++ js "/" ++ filename ++ js "." ++ extension;
         path; filename; extension].
Proof.
  intros H. apply exec_from_sound in H as (pre & s' & caps & rest & -> & Hr & ->).
  apply run_sound in Hr. simpl in Hr.
  destruct Hr as (s1 & -> & a & b1 & -> & _ & _ & s2 & -> & f & b2 & -> & _ & _ &
                  s3 & -> & e & b3 & -> & _ & _ & -> & Hout).
  injection Hout as -> ->.
  exists pre, a, f, e. change (length (@nil N)) with 0%nat.
  rewrite Nat.sub_0_r, firstn_all, !app_nil_r.
  split; reflexivity.
Qed.

(** X1. The three early returns are exact and silent: without a [d]
    parameter, with a URI the pattern does not match, or with a [d] value
    that does not hold exactly one [x], the request comes back as it was
    and nothing is logged. *)
Theorem rewriter_passes_through_silently (r : Request.t) :
  d_param r = None \/
  str_match (uri r) uri_pattern = None \/
  (exists d, d_param r = Some d /\ count (chr "x") d <> 1%nat) ->
  handler (mkCf r) tt = mkResult tt [] [] (Return r).
Proof.
  intros H. rewrite handler_unfold.
  destruct H as [-> | [Hm | (d & -> & Hc)]]; [reflexivity| |].
  - rewrite Hm. now destruct (d_param r).
  - destruct (str_match (uri r) uri_pattern); [|reflexivity].
    cbn zeta. rewrite length_split.
    destruct (Nat.eqb_spec (S (count (chr "x") d)) 2) as [E|_]; [|reflexivity].
    exfalso. apply Hc. lia.
Qed.

Lemma rewriter_passes_through_silently_witness :
  handler (mkCf (get_request "/image/test.png" "w=300" "image/webp")) tt =
  mkResult tt [] [] (Return (get_request "/image/test.png" "w=300" "image/webp")).
Proof.
  apply (rewriter_passes_through_silently
           (get_request "/image/test.png" "w=300" "image/webp")).
  left. reflexivity.
Defined.

(** X2. When the request is rewritten, the [d] value goes into the path
    as it is, between the directory and the format, and the new uri is
    the one line that is logged. *)
Theorem rewriter_keeps_d_verbatim
        (r : Request.t) (whole path filename extension d : jsstring) :
  d_param r = Some d -> count (chr "x") d = 1%nat ->
  str_match (uri r) uri_pattern = Some [whole; path; filename; extension] ->
  let u := js "/resize/" ++ path ++ js "/" ++ d ++ js "/" ++
           negotiate (acceptHeader r) extension ++ js "/" ++
           filename ++ js "." ++ extension in
  handler (mkCf r) tt = mkResult tt [ConsoleLog [LStr u]] [] (Return (set_uri u r)).
Proof.
  intros Hd Hc Hm u. subst u.
  destruct (split_one_separator (chr "x") d Hc) as (a & b & Hs & ->).
  rewrite (handler_rewrites r _ _ _ _ _ _ _ Hd Hm Hs). cbn zeta.
  rewrite negotiate_spec.
  change (js "x" ++ b) with (chr "x" :: b).
  now rewrite <- !app_assoc.
Qed.

Lemma rewriter_keeps_d_verbatim_witness :
  handler (mkCf (get_request "/image/test.png" "d=axb" "text/html")) tt =
  mkResult tt [ConsoleLog [LStr (js "/resize/image/axb/png/test.png")]] []
           (Return (set_uri (js "/resize/image/axb/png/test.png")
                            (get_request "/image/test.png" "d=axb" "text/html"))).
Proof.
  apply (rewriter_keeps_d_verbatim
           (get_request "/image/test.png" "d=axb" "text/html")
           (js "/image/test.png") (js "image") (js "test") (js "png") (js "axb"));
    reflexivity.
Defined.

(** X3. A URI without a dot, or with fewer than two slashes, is never
    rewritten, whatever the query string says. *)
Theorem rewriter_needs_directory_and_dot (r : Request.t) :
  lacks (chr ".") (uri r) \/ (count (chr "/") (uri r) < 2)%nat ->
  handler (mkCf r) tt = mkResult tt [] [] (Return r).
Proof.
  intros H. rewrite handler_unfold.
  destruct (str_match (uri r) uri_pattern) as [m|] eqn:Hm;
    [|now destruct (d_param r)].
  exfalso. apply uri_match_shape in Hm as (pre & path & f & e & E & _).
  destruct H as [H | H]; rewrite E in H.
  - apply H. rewrite !in_app_iff. do 5 right. left. now left.
  - rewrite !count_app in H. change (js "/") with [chr "/"] in H.
    cbn [count] in H. rewrite N.eqb_refl in H. lia.
Qed.

Lemma rewriter_needs_directory_and_dot_witness :
  handler (mkCf (get_request "/test.png" "d=300x300" "image/webp")) tt =
  mkResult tt [] [] (Return (get_request "/test.png" "d=300x300" "image/webp")).
Proof.
  apply (rewriter_needs_directory_and_dot
           (get_request "/test.png" "d=300x300" "image/webp")).
  right. vm_compute. lia.
Defined.

(** X4. The format is [webp] exactly when the value of the first [accept]
    header holds the text [webp] somewhere, or the extension itself is
    [webp]; in every other case it is the extension. *)
Theorem negotiate_webp_iff (accept : option jsstring) (extension : jsstring) :
  (negotiate accept extension = js "webp" <->
   extension = js "webp" \/
   exists pre post, accept = Some (pre ++ js "webp" ++ post)) /\
  (negotiate accept extension = js "webp" \/ negotiate accept extension = extension).
Proof.
  unfold negotiate. destruct accept as [v|].
  - destruct (includes v (js "webp")) eqn:Hi.
    + apply includes_spec in Hi as (pre & post & ->). split; [|now left].
      split; [|reflexivity]. intros _. right. eauto.
    + split; [|now right]. split; [now left|].
      intros [-> | (pre & post & E)]; [reflexivity|].
      injection E as ->.
      assert (includes (pre ++ js "webp" ++ post) (js "webp") = true)
        by (apply includes_spec; eauto).
      exfalso. revert Hi.
      change (includes (pre ++ js "webp" ++ post) (js "webp") = false -> False).
      rewrite H. discriminate.
  - split; [|now right]. split; [now left|].
    intros [-> | (pre & post & E)]; [reflexivity|discriminate E].
Qed.

(** X5. In a query string that begins with [d=v], where [v] is ASCII
    without [&], [+] and [%], the value the handler reads is [v] itself,
    whatever parameters follow: the first [d] wins. *)
Theorem first_d_parameter_wins (r : Request.t) (v tail : jsstring) :
  plain v -> tail = [] \/ (exists rest, tail = chr "&" :: rest) ->
  querystring r = js "d=" ++ v ++ tail ->
  d_param r = Some v.
Proof.
  intros Hv Ht Hq. unfold d_param. rewrite Hq.
  destruct (new_d_first v tail Hv Ht) as (others & ->). reflexivity.
Qed.

Lemma first_d_parameter_wins_witness :
  d_param (get_request "/image/test.png" "d=300x300&d=1x1" "image/webp") =
  Some (js "300x300").
Proof.
  apply (first_d_parameter_wins _ (js "300x300") (js "&d=1x1")).
  - reflexivity.
  - right. eexists. reflexivity.
  - reflexivity.
Defined.

(** X6. Two derived keys with well-formed parts are the same string only
    if all five parts are the same: the key names one variant. *)
Theorem derived_key_injective
        (sp1 w1 h1 f1 n1 sp2 w2 h2 f2 n2 : jsstring) :
  valid_key_parts sp1 w1 h1 f1 n1 -> valid_key_parts sp2 w2 h2 f2 n2 ->
  derived_key_of sp1 w1 h1 f1 n1 = derived_key_of sp2 w2 h2 f2 n2 ->
  sp1 = sp2 /\ w1 = w2 /\ h1 = h2 /\ f1 = f2 /\ n1 = n2.
Proof.
  intros ([A1 A2] & [B1 B2] & [C1 C2] & (D1 & D2 & _) & (E1 & E2 & E3))
         ([A1' A2'] & [B1' B2'] & [C1' C2'] & (D1' & D2' & _) & (E1' & E2' & E3')) E.
  pose proof (key_pattern_match sp1 w1 h1 f1 n1 A1 A2 B1 B2 C1 C2 D1 D2 E1 E2 E3) as M1.
  pose proof (key_pattern_match sp2 w2 h2 f2 n2 A1' A2' B1' B2' C1' C2' D1' D2' E1' E2' E3')
    as M2.
  cbv zeta in M1, M2. fold (derived_key_of sp1 w1 h1 f1 n1) in M1.
  fold (derived_key_of sp2 w2 h2 f2 n2) in M2.
  rewrite E, M2 in M1. injection M1 as -> -> -> -> ->. auto.
Qed.
End RewriterFurther.

(** ** The Resize Orchestrator, further *)

Section OrchestratorFurther.
Import OriginResponse.

Lemma not_found_class_dec (s : status_value) :
  not_found_class s \/ ~ not_found_class s.
Proof.
  destruct (strict_neq_str s (js "404") && strict_neq_str s (js "403")) eqn:E.
  - right. rewrite <- not_found_class_spec. congruence.
  - left. now apply not_found_class_spec.
Qed.

(** X7. The module's client is created on the first invocation, for the
    fixed region, and kept ever after; a warm start behaves like a cold
    one, and a second invocation with the same inputs like the first. *)
Theorem orchestrator_client_reuse (w : world) (ev : cf) (st : module_state) :
  final_state (handler w ev st) = Some (client_of st) /\
  handler w ev None = handler w ev (Some (mkS3Client REGION)) /\
  handler w ev (final_state (handler w ev st)) = handler w ev st.
Proof.
  assert (F : final_state (handler w ev st) = Some (client_of st)).
  { destruct (not_found_class_dec (Response.status (response ev))) as [H | H].
    - rewrite (handler_not_found w ev st H). cbv zeta.
      destruct (str_match _ KEY_PATTERN) as [m|]; [|reflexivity].
      destruct (bounds_violated _ _); [reflexivity|].
      destruct (get_object _ _ _ _) as [[imageBuffer|e]|e]; try reflexivity.
      destruct (sharp_pipeline _ _ _ _ _); reflexivity.
    - now rewrite (handler_other_status w ev st H). }
  assert (C : handler w ev None = handler w ev (Some (mkS3Client REGION))).
  { destruct (not_found_class_dec (Response.status (response ev))) as [H | H].
    - now rewrite !(handler_not_found w ev _ H).
    - now rewrite !(handler_other_status w ev _ H). }
  repeat split; trivial.
  rewrite F. destruct st as [c|]; [reflexivity|]. symmetry. exact C.
Qed.

(** X8. Whatever the inputs, an invocation ends in one of three ways: the
    triggering response and nothing sent; the triggering response after
    one fetch; or the synthesized response after one fetch and one write
    to the key of the request.  Nothing is sent from a detached chain. *)
Theorem orchestrator_outcomes (w : world) (ev : cf) (st : module_state) :
  ((outcome (handler w ev st) = Return (response ev) /\
    (s3_commands (trace (handler w ev st)) = [] \/
     exists originKey,
       s3_commands (trace (handler w ev st)) = [GetObjectCommand BUCKET originKey])) \/
   exists originKey format resizedBuffer,
     outcome (handler w ev st) =
       Return (synthesized (response ev) format resizedBuffer) /\
     s3_commands (trace (handler w ev st)) =
       [GetObjectCommand BUCKET originKey;
        PutObjectCommand BUCKET (substring 1 (Request.uri (request ev))) resizedBuffer
                         (js "image/" ++ mapped_format format) CACHE_CONTROL]) /\
  s3_commands (detached (handler w ev st)) = [].
Proof.
  destruct (not_found_class_dec (Response.status (response ev))) as [H | H].
  - rewrite (handler_not_found w ev st H). unfold derived_key. cbv zeta.
    destruct (str_match _ KEY_PATTERN) as [m|]; [|split; [left|]; auto].
    destruct (bounds_violated _ _); [split; [left|]; auto|].
    destruct (get_object _ _ _ _) as [[imageBuffer|e]|e];
      try (split; [left; split; [reflexivity|right; eexists; reflexivity]|reflexivity]).
    destruct (sharp_pipeline _ _ _ _ _) as [resizedBuffer|e];
      try (split; [left; split; [reflexivity|right; eexists; reflexivity]|reflexivity]).
    split.
    + right. eexists _, _, _. split; reflexivity.
    + cbn [detached]. now destruct (put_object _ _ _ _ _ _ _).
  - rewrite (handler_other_status w ev st H). split; [left|]; auto.
Qed.

(** X9. A key that does not begin with [resize/] is left alone: the
    triggering response comes back and nothing is sent to the store. *)
Theorem orchestrator_ignores_foreign_keys (w : world) (ev : cf) (st : module_state) :
  starts_with (js "resize/") (substring 1 (Request.uri (request ev))) = false ->
  outcome (handler w ev st) = Return (response ev) /\
  s3_commands (trace (handler w ev st)) = [] /\
  s3_commands (detached (handler w ev st)) = [].
Proof.
  intros Hs.
  assert (Hm : str_match (substring 1 (Request.uri (request ev))) KEY_PATTERN = None).
  { destruct (str_match _ KEY_PATTERN) as [m|] eqn:Hm; [|reflexivity].
    apply key_match_sound in Hm as (sp & ws & hs & f & n & _ & E & _).
    assert (starts_with (js "resize/") (substring 1 (Request.uri (request ev))) = true)
      by (apply starts_with_spec; eauto).
    congruence. }
  destruct (not_found_class_dec (Response.status (response ev))) as [H | H].
  - rewrite (handler_not_found w ev st H). unfold derived_key. cbv zeta.
    rewrite Hm. repeat split.
  - rewrite (handler_other_status w ev st H). repeat split.
Qed.

Lemma orchestrator_ignores_foreign_keys_witness :
  outcome (handler cover_world (not_found_event (js "/origin/blog/cover.jpg")) None) =
    Return (response (not_found_event (js "/origin/blog/cover.jpg"))) /\
  s3_commands (trace (handler cover_world
                        (not_found_event (js "/origin/blog/cover.jpg")) None)) = [] /\
  s3_commands (detached (handler cover_world
                           (not_found_event (js "/origin/blog/cover.jpg")) None)) = [].
Proof.
  apply (orchestrator_ignores_foreign_keys cover_world
           (not_found_event (js "/origin/blog/cover.jpg")) None).
  reflexivity.
Defined.

Lemma fetch_only_after_checks_witness :
  exists subpath widthStr heightStr format filename wz hz,
    checks_pass cover_event subpath widthStr heightStr format filename wz hz.
Proof.
  apply (fetch_only_after_checks cover_world cover_event None
           (GetObjectCommand BUCKET (js "origin/blog/cover.jpg"))).
  rewrite (handler_not_found cover_world cover_event None (or_introl eq_refl)).
  left. reflexivity.
Defined.

(** X10. When the write of the resized image is rejected, the client gets
    the same 200 response; the rejection is logged from the detached
    chain and nowhere else. *)
Theorem upload_failure_is_only_logged
        (w : world) (ev : cf) (st : module_state)
        (subpath widthStr heightStr format filename : jsstring) (wz hz : Z)
        (imageBuffer resizedBuffer : buffer) (e : error) :
  checks_pass ev subpath widthStr heightStr format filename wz hz ->
  get_object w (client_of st) BUCKET (origin_key subpath filename) =
    Fulfilled (Fulfilled imageBuffer) ->
  sharp_pipeline w imageBuffer (Num wz) (Num hz) (mapped_format format) =
    Fulfilled resizedBuffer ->
  put_object w (client_of st) BUCKET (substring 1 (Request.uri (request ev)))
             resizedBuffer (js "image/" ++ mapped_format format) CACHE_CONTROL =
    Rejected e ->
  outcome (handler w ev st) = Return (synthesized (response ev) format resizedBuffer) /\
  detached (handler w ev st) =
    [ConsoleError [LStr (js "Failed to upload resized image:"); LErr e]] /\
  (forall args, ~ In (ConsoleError args) (trace (handler w ev st))).
Proof.
  intros Hc Hg Hp Hu.
  rewrite (handler_after_checks w ev st _ _ _ _ _ _ _ Hc). cbv zeta.
  rewrite Hg, Hp, Hu. repeat split.
  intros args. cbn [trace In]. intros [H | [H | [H | [H | H]]]];
    try discriminate H; exact H.
Qed.

Lemma upload_failure_is_only_logged_witness :
  outcome (handler readonly_world cover_event None) =
    Return (synthesized (response cover_event) (js "webp")
                        [Byte.xff; Byte.xd8; Byte.xff]) /\
  detached (handler readonly_world cover_event None) =
    [ConsoleError [LStr (js "Failed to upload resized image:");
                   LErr (ServiceError (js "AccessDenied"))]] /\
  (forall args, ~ In (ConsoleError args) (trace (handler readonly_world cover_event None))).
Proof.
  apply (upload_failure_is_only_logged readonly_world cover_event None
           (js "blog") (js "300") (js "300") (js "webp") (js "cover.jpg") 300 300
           [Byte.xff; Byte.xd8; Byte.xff] [Byte.xff; Byte.xd8; Byte.xff]
           (ServiceError (js "AccessDenied")) cover_event_checks
           eq_refl eq_refl eq_refl).
Defined.
End OrchestratorFurther.

(** ** The two handlers together *)

Section KeysFurther.
Import OriginResponse.

Lemma digits_value_fold (s : jsstring) : forall a,
  all_digits s ->
  digits_value (Some a) s =
  Some (fold_left (fun a c => (10 * a + Z.of_N (c - 48))%Z) s a).
Proof.
  unfold all_digits. induction s as [|c s IH]; intros a H; [reflexivity|].
  simpl in H. apply andb_true_iff in H as [Hc Hs].
  simpl. rewrite Hc. now apply IH.
Qed.

(** [parseInt] of a non-empty run of digits is the number the digits
    denote. *)
Lemma parseInt10_decimal_value (s : jsstring) :
  s <> [] -> all_digits s -> parseInt10 s = Num (decimal s).
Proof.
  destruct s as [|c s]; [contradiction|]. intros _ H.
  assert (Hc : is_digit c = true)
    by (unfold all_digits in H; simpl in H; now apply andb_true_iff in H as [? _]).
  assert (Hs : all_digits s)
    by (unfold all_digits in *; simpl in H; now apply andb_true_iff in H as [_ ?]).
  unfold parseInt10. simpl trim_start. rewrite (digit_not_whitespace c Hc).
  assert (Hc' := Hc). unfold is_digit in Hc'.
  apply andb_true_iff in Hc' as [H1 H2]. apply N.leb_le in H1, H2.
  assert (Hm : N.eqb c (chr "-") = false) by (apply N.eqb_neq; vm_compute; lia).
  assert (Hp : N.eqb c (chr "+") = false) by (apply N.eqb_neq; vm_compute; lia).
  cbv zeta. rewrite Hm, Hp. simpl digits_value. rewrite Hc.
  rewrite (digits_value_fold s _ Hs). unfold decimal. simpl fold_left.
  now rewrite Z.mul_1_l.
Qed.

Lemma structural_match (ev : cf) (subpath width height format filename : jsstring) :
  Request.uri (request ev) =
    js "/" ++ derived_key_of subpath width height format filename ->
  valid_key_parts subpath width height format filename ->
  str_match (substring 1 (Request.uri (request ev))) KEY_PATTERN =
    Some [substring 1 (Request.uri (request ev));
          subpath; width; height; format; filename] /\
  parseInt10 width = Num (decimal width) /\
  parseInt10 height = Num (decimal height).
Proof.
  intros Hu ([A1 A2] & [B1 B2] & [C1 C2] & (D1 & D2 & _) & (E1 & E2 & E3)).
  rewrite Hu.
  change (substring 1 (js "/" ++ ?k)) with k.
  split; [now apply key_pattern_match|].
  split; now apply parseInt10_decimal_value.
Qed.

(** A request for a well-formed derived key within bounds passes the
    three checks of the Orchestrator. *)
Lemma structural_checks_pass
      (ev : cf) (subpath width height format filename : jsstring) :
  not_found_class (Response.status (response ev)) ->
  Request.uri (request ev) =
    js "/" ++ derived_key_of subpath width height format filename ->
  valid_key_parts subpath width height format filename ->
  in_bounds width -> in_bounds height ->
  checks_pass ev subpath width height format filename (decimal width) (decimal height).
Proof.
  intros Hs Hu Hv Hw Hh.
  destruct (structural_match ev _ _ _ _ _ Hu Hv) as (Hm & Pw & Ph).
  unfold checks_pass. auto 10.
Qed.

Lemma fetch_comes_first (w : world) (ev : cf) (st : module_state)
      (subpath widthStr heightStr format filename : jsstring) (wz hz : Z) :
  checks_pass ev subpath widthStr heightStr format filename wz hz ->
  exists rest,
    s3_commands (trace (handler w ev st)) =
    GetObjectCommand BUCKET (origin_key subpath filename) :: rest.
Proof.
  intros Hc. rewrite (handler_after_checks w ev st _ _ _ _ _ _ _ Hc). cbv zeta.
  destruct (get_object _ _ _ _) as [[imageBuffer|e]|e];
    try (eexists; reflexivity).
  destruct (sharp_pipeline _ _ _ _ _); eexists; reflexivity.
Qed.

Lemma cover_key_parts :
  valid_key_parts (js "blog") (js "300") (js "300") (js "webp") (js "cover.jpg").
Proof.
  assert (L : forall c s, forallb (class_mem (NotChr c)) s = true -> lacks c s)
    by (intros c s; apply lacks_class).
  repeat split; try discriminate; try reflexivity; apply L; reflexivity.
Defined.

Lemma derived_key_injective_witness :
  js "blog" = js "blog" /\ js "300" = js "300" /\ js "300" = js "300" /\
  js "webp" = js "webp" /\ js "cover.jpg" = js "cover.jpg".
Proof.
  apply (derived_key_injective _ _ _ _ _ _ _ _ _ _ cover_key_parts cover_key_parts).
  reflexivity.
Defined.

(** X11. For a not-found status and a well-formed derived key, the
    numbers the two dimensions denote decide: when both lie between 1 and
    4000 the first command sent is the fetch of
    [origin/{subpath}/{filename}]; otherwise the triggering response comes
    back and nothing is sent. *)
Theorem orchestrator_bounds_by_value
        (w : world) (ev : cf) (st : module_state)
        (subpath width height format filename : jsstring) :
  not_found_class (Response.status (response ev)) ->
  Request.uri (request ev) =
    js "/" ++ derived_key_of subpath width height format filename ->
  valid_key_parts subpath width height format filename ->
  (in_bounds width /\ in_bounds height ->
   exists rest,
     s3_commands (trace (handler w ev st)) =
     GetObjectCommand BUCKET (js "origin/" ++ subpath ++ js "/" ++ filename) :: rest) /\
  (~ (in_bounds width /\ in_bounds height) ->
   outcome (handler w ev st) = Return (response ev) /\
   s3_commands (trace (handler w ev st)) = []).
Proof.
  intros Hs Hu Hv. split.
  - intros [Hw Hh].
    apply (fetch_comes_first w ev st subpath width height format filename
             (decimal width) (decimal height)).
    now apply structural_checks_pass.
  - intros Hn. destruct (structural_match ev _ _ _ _ _ Hu Hv) as (Hm & Pw & Ph).
    rewrite (handler_not_found w ev st Hs). unfold derived_key. cbv zeta.
    rewrite Hm. cbn [at_index nth]. rewrite Pw, Ph.
    assert (Hb : bounds_violated (Num (decimal width)) (Num (decimal height)) = true).
    { apply bounds_violated_spec. unfold in_bounds in Hn. lia. }
    rewrite Hb. split; reflexivity.
Qed.

Lemma orchestrator_bounds_by_value_witness :
  (in_bounds (js "300") /\ in_bounds (js "300") ->
   exists rest,
     s3_commands (trace (handler cover_world cover_event None)) =
     GetObjectCommand BUCKET (js "origin/" ++ js "blog" ++ js "/" ++ js "cover.jpg")
     :: rest) /\
  (~ (in_bounds (js "300") /\ in_bounds (js "300")) ->
   outcome (handler cover_world cover_event None) = Return (response cover_event) /\
   s3_commands (trace (handler cover_world cover_event None)) = []).
Proof.
  apply (orchestrator_bounds_by_value cover_world cover_event None
           (js "blog") (js "300") (js "300") (js "webp") (js "cover.jpg")).
  - left. reflexivity.
  - reflexivity.
  - exact cover_key_parts.
Defined.

(** X12. The two handlers in a row.  A request
    [/{subpath}/{filename}.{extension}] with [d={width}x{height}] within
    bounds is rewritten, and when the rewritten request comes to the
    Orchestrator with a not-found status, the first command sent is the
    fetch of the original at [origin] followed by the path of the first
    request. *)
Theorem rewriter_then_orchestrator
        (r : Request.t) (resp : Response.t)
        (subpath width height filename extension : jsstring) :
  valid_subpath subpath -> valid_filename filename extension ->
  valid_dimension width -> valid_dimension height ->
  in_bounds width -> in_bounds height ->
  Request.uri r = js "/" ++ subpath ++ js "/" ++ filename ++ js "." ++ extension ->
  d_param r = Some (width ++ js "x" ++ height) ->
  not_found_class (Response.status resp) ->
  exists r',
    outcome (ViewerRequest.handler (ViewerRequest.mkCf r) tt) = Return r' /\
    forall (w : world) (st : module_state),
    exists rest,
      s3_commands (trace (handler w (mkCf r' resp) st)) =
      GetObjectCommand BUCKET (js "origin" ++ Request.uri r) :: rest.
Proof.
  intros [Hsp Hsp'] [(Hf & Hf' & Hf'') [(He & He' & He'') Hdot]]
         [Hw Hw'] [Hh Hh'] Bw Bh Huri Hd Hs.
  assert (Hm : str_match (Request.uri r) ViewerRequest.uri_pattern =
               Some [Request.uri r; subpath; filename; extension])
    by (rewrite Huri; now apply uri_pattern_match).
  assert (Hx : split (chr "x") (width ++ js "x" ++ height) = [width; height])
    by (apply split_two; now apply digits_lack).
  rewrite (handler_rewrites r _ _ _ _ _ _ _ Hd Hm Hx). cbn [outcome].
  eexists. split; [reflexivity|]. intros w st.
  replace (js "origin" ++ Request.uri r)
    with (origin_key subpath (filename ++ js "." ++ extension))
    by (rewrite Huri; reflexivity).
  apply (fetch_comes_first w _ st subpath width height
           (negotiated_format r extension) (filename ++ js "." ++ extension)
           (decimal width) (decimal height)).
  pose proof (negotiated_format_segment r extension (conj He (conj He' He'')))
    as Hn.
  assert (Hname : valid_segment (filename ++ js "." ++ extension)).
  { repeat split.
    - destruct filename; discriminate.
    - apply lacks_app. split; trivial.
      change (js "." ++ extension) with (chr "." :: extension).
      intros [E|Hin]; [discriminate E|]. now apply He'.
    - unfold one_line in *. rewrite forallb_app, Hf''. exact He''. }
  apply structural_checks_pass; trivial.
  unfold valid_key_parts, valid_subpath, valid_dimension. auto 10.
Qed.
End KeysFurther.

(** ** Buffers *)

Lemma list_ind3 {A} (P : list A -> Prop) :
  P [] -> (forall a, P [a]) -> (forall a b, P [a; b]) ->
  (forall a b c l, P l -> P (a :: b :: c :: l)) ->
  forall l, P l.
Proof.
  intros H0 H1 H2 H3.
  assert (H : forall l, P l /\ (forall a, P (a :: l)) /\ (forall a b, P (a :: b :: l))).
  { induction l as [|x l (IH0 & IH1 & IH2)]; [auto|].
    repeat split; auto. }
  intros l. apply H.
Qed.

(** X13. The base64 text of [n] bytes is [4 * ceil(n / 3)] characters
    long: the body of the synthesized response is a third longer than the
    image. *)
Theorem base64_length (buf : buffer) :
  length (base64 buf) = (4 * ((length buf + 2) / 3))%nat.
Proof.
  induction buf as [|a|a b|a b c l IH] using list_ind3; try reflexivity.
  cbn [base64 length]. rewrite IH.
  replace (S (S (S (length l))) + 2)%nat with (1 * 3 + (length l + 2))%nat by lia.
  rewrite Nat.div_add_l by discriminate. lia.
Qed.

(** ** Further properties across the handlers *)

Section Further.
Import OriginResponse.

(** X14. The uri the Rewriter returns, and the line it logs, depend on
    the uri, the query string and the first [accept] header only: the
    method and every other header play no part. *)
Theorem rewritten_uri_depends_on (r1 r2 : Request.t) :
  Request.uri r1 = Request.uri r2 ->
  Request.querystring r1 = Request.querystring r2 ->
  ViewerRequest.acceptHeader r1 = ViewerRequest.acceptHeader r2 ->
  exists r1' r2',
    outcome (ViewerRequest.handler (ViewerRequest.mkCf r1) tt) = Return r1' /\
    outcome (ViewerRequest.handler (ViewerRequest.mkCf r2) tt) = Return r2' /\
    Request.uri r1' = Request.uri r2' /\
    trace (ViewerRequest.handler (ViewerRequest.mkCf r1) tt) =
    trace (ViewerRequest.handler (ViewerRequest.mkCf r2) tt).
Proof.
  intros Hu Hq Ha. rewrite !handler_unfold. unfold d_param.
  rewrite Hu, Hq, Ha.
  destruct (URLSearchParams.get _ _) as [d|]; [|eexists _, _; cbn; eauto].
  destruct (str_match _ _) as [m|]; [|eexists _, _; cbn; eauto].
  cbv zeta. destruct (negb _); eexists _, _; cbn; eauto.
Qed.

Lemma rewritten_uri_depends_on_witness :
  exists r1' r2',
    outcome (ViewerRequest.handler (ViewerRequest.mkCf cover_request) tt) = Return r1' /\
    outcome (ViewerRequest.handler
               (ViewerRequest.mkCf
                  (Request.mk (Request.uri cover_request)
                              (Request.querystring cover_request) (js "HEAD")
                              (<[js "cookie" := [Header.mk None (js "a=b")]]>
                                 (Request.headers cover_request)))) tt) = Return r2' /\
    Request.uri r1' = Request.uri r2' /\
    trace (ViewerRequest.handler (ViewerRequest.mkCf cover_request) tt) =
    trace (ViewerRequest.handler
             (ViewerRequest.mkCf
                (Request.mk (Request.uri cover_request)
                            (Request.querystring cover_request) (js "HEAD")
                            (<[js "cookie" := [Header.mk None (js "a=b")]]>
                               (Request.headers cover_request)))) tt).
Proof.
  apply (rewritten_uri_depends_on cover_request
           (Request.mk (Request.uri cover_request)
                       (Request.querystring cover_request) (js "HEAD")
                       (<[js "cookie" := [Header.mk None (js "a=b")]]>
                          (Request.headers cover_request)))); reflexivity.
Defined.

(** X15. Commands go to the object store exactly when the three checks
    pass: a not-found status, a key the pattern matches, and both
    dimensions parsed to numbers between 1 and 4000. *)
Theorem store_touched_iff_checks_pass (w : world) (ev : cf) (st : module_state) :
  s3_commands (trace (handler w ev st)) <> [] <->
  exists subpath widthStr heightStr format filename wz hz,
    checks_pass ev subpath widthStr heightStr format filename wz hz.
Proof.
  split.
  - intros H. destruct (s3_commands (trace (handler w ev st))) as [|c l] eqn:E;
      [contradiction|].
    apply (fetch_only_after_checks w ev st c). rewrite E. now left.
  - intros (sp & ws & hs & f & n & wz & hz & Hc).
    destruct (fetch_comes_first w ev st _ _ _ _ _ _ _ Hc) as (rest & ->).
    discriminate.
Qed.

Lemma in_bounds_300 : in_bounds (js "300").
Proof. unfold in_bounds. change (decimal (js "300")) with 300%Z. lia. Defined.

Lemma rewriter_then_orchestrator_witness :
  exists r',
    outcome (ViewerRequest.handler (ViewerRequest.mkCf cover_request) tt) = Return r' /\
    forall (w : world) (st : module_state),
    exists rest,
      s3_commands (trace (handler w (mkCf r' (response cover_event)) st)) =
      GetObjectCommand BUCKET (js "origin/blog/posts/cover.jpg") :: rest.
Proof.
  assert (L : forall c s, forallb (class_mem (NotChr c)) s = true -> lacks c s)
    by (intros c s; apply lacks_class).
  apply (rewriter_then_orchestrator cover_request (response cover_event)
           (js "blog/posts") (js "300") (js "300") (js "cover") (js "jpg"));
    try exact in_bounds_300;
    try (left; reflexivity);
    repeat split; try discriminate; try reflexivity; apply L; reflexivity.
Defined.
End Further.
